(** * Time-mail: the in-memory inbox registry of [main.py]

    A shallow embedding of the FastAPI service of [src/main.py]: the two
    module-level dictionaries [inboxes] and [active_connections], the request
    handlers, the WebSocket endpoint and the two background tasks.

    Modelling conventions.
    - A Python [dict] with string keys is a [gmap string _].  Python keeps
      insertion order; the only places that observe an order are the
      enumeration of the reaper and [random.choice], and nothing proved below
      depends on which order that is.
    - A [datetime] is an integer number of microseconds (the resolution of
      Python's [datetime]); [timedelta(hours=1)] is [3600 * 10^6].
    - A coroutine only loses control at an [await].  Every handler is
      therefore cut into its atomic segments, the code between two awaits,
      and each segment is a function in the monad [M] below.  What the
      awaited call answers (a value, or the exception it raises) is an
      argument of the next segment.
    - [uuid.uuid4()], [random.randint], [random.choice] and
      [datetime.now] are read from the environment: their results are
      arguments of the segment that calls them.
    - The field [trace] of the state is ghost: it records, oldest first, what
      the program did to the outside world (lines printed, frames sent on a
      socket, sockets accepted or closed). *)

From Stdlib Require Import ZArith NArith Lia String Ascii.
From stdpp Require Import base gmap list strings fin_maps pretty.

Open Scope string_scope.
Open Scope list_scope.
Open Scope Z_scope.

(** ** Data model *)

(** A message as built at lines 92-97. *)
Record Message := mkMessage {
  msg_id : string;
  sender : string;
  subject : string;
  body : string
}.

(** One value of [inboxes] (lines 145-149). *)
Record Inbox := mkInbox {
  email_address : string;
  messages : list Message;
  expires_at : Z
}.

(** A [WebSocket] object, known by its identity. *)
Definition WebSocket := nat.

(** The exceptions the program raises, catches or lets through. *)
Inductive exn :=
| KeyError
| IndexError
| RuntimeError
| WebSocketDisconnect
| HTTPException (status_code : Z) (detail : string).

Inductive Event :=
| PrintLine (line : string)
| Accept (ws : WebSocket)
| SendJson (ws : WebSocket) (m : Message)
| Close (ws : WebSocket) (code : Z).

Record State := mkState {
  inboxes : gmap string Inbox;
  active_connections : gmap string WebSocket;
  trace : list Event
}.

(** Both dictionaries are empty when the module is loaded (lines 39, 43). *)
Definition initial : State := mkState ∅ ∅ [].

#[global] Instance Message_eq_dec : EqDecision Message.
Proof. solve_decision. Defined.
#[global] Instance Inbox_eq_dec : EqDecision Inbox.
Proof. solve_decision. Defined.
#[global] Instance exn_eq_dec : EqDecision exn.
Proof. solve_decision. Defined.
#[global] Instance Event_eq_dec : EqDecision Event.
Proof. solve_decision. Defined.

(** ** The monad of one atomic segment

    A segment reads and writes the state and either returns or raises.  What
    it wrote before raising stays written, as in Python. *)

Inductive result (A : Type) :=
| Ret (a : A)
| Raise (e : exn).
Arguments Ret {A} a.
Arguments Raise {A} e.

Definition M (A : Type) : Type := State → result A * State.

Definition raise {A} (e : exn) : M A := λ s, (Raise e, s).

#[global] Instance M_ret : MRet M := λ A a s, (Ret a, s).
#[global] Instance M_bind : MBind M := λ A B k m s,
  match m s with
  | (Ret a, s') => k a s'
  | (Raise e, s') => (Raise e, s')
  end.

Definition get_inboxes : M (gmap string Inbox) := λ s, (Ret (inboxes s), s).
Definition get_connections : M (gmap string WebSocket) :=
  λ s, (Ret (active_connections s), s).
Definition set_inboxes (f : gmap string Inbox → gmap string Inbox) : M unit :=
  λ s, (Ret tt, mkState (f (inboxes s)) (active_connections s) (trace s)).
Definition set_connections
    (f : gmap string WebSocket → gmap string WebSocket) : M unit :=
  λ s, (Ret tt, mkState (inboxes s) (f (active_connections s)) (trace s)).
Definition emit (e : Event) : M unit :=
  λ s, (Ret tt, mkState (inboxes s) (active_connections s) (trace s ++ [e])).

(** [d[k]]: raises [KeyError] when [k] is missing. *)
Definition subscript {V} (d : gmap string V) (k : string) : M V :=
  match d !! k with
  | Some v => mret v
  | None => raise KeyError
  end.

(** [del d[k]] on each of the two dictionaries: [KeyError] when missing. *)
Definition del_inbox (k : string) : M unit :=
  d ← get_inboxes;
  _ ← subscript d k;
  set_inboxes (delete k).

Definition del_connection (k : string) : M unit :=
  d ← get_connections;
  _ ← subscript d k;
  set_connections (delete k).

(** [k in d]. *)
Definition contains {V} (d : gmap string V) (k : string) : bool :=
  bool_decide (is_Some (d !! k)).

(** ** Identifiers and addresses *)

Definition TTL : Z := 3600 * 1000000.

Definition hex_digit (d : N) : ascii :=
  match d with
  | 0 => "0" | 1 => "1" | 2 => "2" | 3 => "3" | 4 => "4" | 5 => "5"
  | 6 => "6" | 7 => "7" | 8 => "8" | 9 => "9" | 10 => "a" | 11 => "b"
  | 12 => "c" | 13 => "d" | 14 => "e" | _ => "f"
  end%N%char.

(** The [width] low hexadecimal digits of [n], most significant first. *)
Fixpoint hex_fixed (width : nat) (n : N) : string :=
  match width with
  | O => ""
  | S w => hex_fixed w (n / 16)%N +:+ String (hex_digit (n mod 16)%N) ""
  end.

(** A UUID is its 128-bit integer; [uuid_hex] is its [.hex] attribute. *)
Definition UUID := N.
Definition uuid_hex (u : UUID) : string := hex_fixed 32 u.

(** [str(u)]: the 8-4-4-4-12 form. *)
Definition uuid_str (u : UUID) : string :=
  let h := uuid_hex u in
  substring 0 8 h +:+ "-" +:+ substring 8 4 h +:+ "-" +:+ substring 12 4 h
    +:+ "-" +:+ substring 16 4 h +:+ "-" +:+ substring 20 12 h.

(** Lines 133-134 and 138-139: [f"{uuid.uuid4().hex[:8]}@temp-inbox.com"]. *)
Definition random_prefix (u : UUID) : string := substring 0 8 (uuid_hex u).
Definition address_of (u : UUID) : string := random_prefix u +:+ "@temp-inbox.com".

(** Line 137: [any(d['email_address'] == email_address for d in inboxes.values())]. *)
Definition address_taken (d : gmap string Inbox) (addr : string) : bool :=
  bool_decide (Exists (λ kv, email_address kv.2 = addr) (map_to_list d)).

(** Lines 137-139.  [draws] are the values the further calls of
    [uuid.uuid4()] return, in order; the loop asks for one per turn.  [None]
    means that the loop is still running when the draws are used up. *)
Fixpoint regenerate (d : gmap string Inbox) (addr : string) (draws : list UUID)
    : option string :=
  if address_taken d addr then
    match draws with
    | [] => None
    | u :: rest => regenerate d (address_of u) rest
    end
  else Some addr.

(** What a handler sends back. *)
Inductive Response :=
| NewEmailResponse (email_id addr : string)
| InboxResponse (inbox : list Message)
| MessageResponse (message : string).

#[global] Instance Response_eq_dec : EqDecision Response.
Proof. solve_decision. Defined.

(** [GET /api/new_email] (lines 127-153).  [id_draw] and [first] are the two
    calls of [uuid.uuid4()] at lines 132-133, [draws] those of the loop, [now]
    the clock read at line 142.  The handler has no [await]: it is one
    segment.  [None] stands for a loop that has not come to an end. *)
Definition generate_new_email (id_draw first : UUID) (draws : list UUID) (now : Z)
    : State → option (result Response * State) :=
  λ s,
    let email_id := uuid_str id_draw in
    match regenerate (inboxes s) (address_of first) draws with
    | None => None
    | Some email_address =>
        let store : M Response :=
          set_inboxes (<[email_id := mkInbox email_address [] (now + TTL)]>);;
          emit (PrintLine ("INFO: Created new email: " +:+ email_address
                             +:+ " (ID: " +:+ email_id +:+ ")"));;
          mret (NewEmailResponse email_id email_address) in
        Some (store s)
    end.

(** [GET /api/check_email/{email_id}] (lines 157-164), one segment. *)
Definition not_found_expired : exn :=
  HTTPException 404 "Email ID not found or has expired.".
Definition not_found_deleted : exn :=
  HTTPException 404 "Email ID not found or has already been deleted.".

Definition check_email_inbox (email_id : string) : M Response :=
  d ← get_inboxes;
  if negb (contains d email_id) then raise not_found_expired
  else
    data ← subscript d email_id;
    mret (InboxResponse (messages data)).

(** [active_connections.pop(k)]. *)
Definition pop_connection (k : string) : M WebSocket :=
  c ← get_connections;
  ws ← subscript c k;
  set_connections (delete k);;
  mret ws.

(** Lines 188 and 189: what [delete_email] prints and answers once the inbox
    is gone. *)
Definition deleted_line (addr email_id : string) : Event :=
  PrintLine ("INFO: Deleted email: " +:+ addr +:+ " (ID: " +:+ email_id +:+ ")").
Definition deleted_response (addr : string) : Response :=
  MessageResponse ("Email address " +:+ addr
                     +:+ " and its inbox have been deleted.").

(** [POST /api/delete_email] (lines 168-189).  [close_answer] is what
    [await connection.close()] answers at line 183: [None] when it returns,
    [Some e] when it raises [e].  Nothing after that await reads or writes a
    dictionary, so the two segments are given as one function. *)
Definition delete_email (email_id : string) (close_answer : option exn)
    : M Response :=
  d ← get_inboxes;
  if negb (contains d email_id) then raise not_found_deleted
  else
    data ← subscript d email_id;
    let addr := email_address data in
    del_inbox email_id;;
    c ← get_connections;
    (if contains c email_id then
       connection ← pop_connection email_id;
       emit (Close connection 1000);;
       match close_answer with
       | None => mret tt
       | Some RuntimeError => mret tt
       | Some e => raise e
       end
     else mret tt);;
    emit (deleted_line addr email_id);;
    mret (deleted_response addr).

(** [POST /api/refresh_email] (lines 193-205), one segment; [now] is the
    clock read at line 201. *)
Definition refresh_email_timer (email_id : string) (now : Z) : M Response :=
  d ← get_inboxes;
  if negb (contains d email_id) then raise not_found_expired
  else
    data ← subscript d email_id;
    set_inboxes (<[email_id :=
      mkInbox (email_address data) (messages data) (now + TTL)]>);;
    d' ← get_inboxes;
    data' ← subscript d' email_id;
    let addr := email_address data' in
    emit (PrintLine ("INFO: Refreshed timer for: " +:+ addr
                   +:+ " (ID: " +:+ email_id +:+ ")"));;
    mret (MessageResponse ("Timer for " +:+ addr
                             +:+ " has been reset to one hour.")).

(** ** The WebSocket endpoint (lines 211-234)

    Three segments: up to [await websocket.accept()] (or the rejection),
    from there to the first [await websocket.receive_text()], and the
    [finally] block, which runs when [receive_text] raises. *)

Definition websocket_connect (websocket : WebSocket) (email_id : string)
    : M bool :=
  d ← get_inboxes;
  if negb (contains d email_id) then
    emit (Close websocket 1008);; mret false
  else
    emit (Accept websocket);; mret true.

Definition websocket_register (websocket : WebSocket) (email_id : string)
    : M unit :=
  set_connections (<[email_id := websocket]>);;
  emit (PrintLine ("INFO: WebSocket connected for email ID: " +:+ email_id)).

(** Lines 231-234, the [finally] block. *)
Definition websocket_finally (websocket : WebSocket) (email_id : string)
    : M unit :=
  c ← get_connections;
  if contains c email_id then del_connection email_id else mret tt.

(** Lines 229-234: what runs when [receive_text] raises [e].  The handler of
    line 229 takes [WebSocketDisconnect]; the [finally] block runs in every
    case; an exception that was not handled goes on after it. *)
Definition websocket_leave (websocket : WebSocket) (email_id : string)
    (e : exn) : M unit :=
  match e with
  | WebSocketDisconnect =>
      emit (PrintLine ("INFO: WebSocket disconnected for email ID: "
                         +:+ email_id));;
      websocket_finally websocket email_id
  | _ => websocket_finally websocket email_id;; raise e
  end.

(** ** The reaper (lines 51-73) *)

(** Lines 61-64. *)
Definition expired_ids (d : gmap string Inbox) (now : Z) : list string :=
  (filter (λ kv, expires_at kv.2 < now) (map_to_list d)).*1.

(** The body of the loop of lines 67-73. *)
Definition reap_one (email_id : string) : M unit :=
  d ← get_inboxes;
  data ← subscript d email_id;
  emit (PrintLine ("INFO: Deleting expired inbox for " +:+ email_address data));;
  (if contains d email_id then del_inbox email_id else mret tt);;
  c ← get_connections;
  if contains c email_id then del_connection email_id else mret tt.

Fixpoint for_each {A} (f : A → M unit) (l : list A) : M unit :=
  match l with
  | [] => mret tt
  | x :: rest => f x;; for_each f rest
  end.

(** One turn of [while True] after the sleep; [now] is the clock read at
    line 58.  No [await] in it. *)
Definition cleanup_tick (now : Z) : M unit :=
  d ← get_inboxes;
  for_each reap_one (expired_ids d now).

(** ** The arrival generator (lines 76-111) *)

(** What one cycle reads from [random], [uuid] and the clock. *)
Record Randomness := mkRandomness {
  r_choice : nat;      (* random.choice *)
  r_uuid : UUID;       (* uuid.uuid4(), line 93 *)
  r_sender : Z;        (* random.randint(100, 999) *)
  r_subject : Z;       (* random.randint(1000, 9999) *)
  r_iso : string       (* datetime.now(timezone.utc).isoformat() *)
}.

(** [random.randint(lo, hi)]: some integer of [lo..hi]. *)
Definition randint (lo hi r : Z) : Z := lo + r mod (hi - lo + 1).

(** [random.choice(l)]: [l[k]] for some [k < len(l)]; [IndexError] on the
    empty list. *)
Definition choice (r : nat) (l : list string) : M string :=
  match l !! (r mod length l)%nat with
  | Some x => mret x
  | None => raise IndexError
  end.

Definition nl : string := String (ascii_of_nat 10) "".

(** Lines 92-97. *)
Definition new_email (rnd : Randomness) (addr : string) : Message :=
  mkMessage
    (uuid_str (r_uuid rnd))
    ("service-" +:+ pretty (randint 100 999 (r_sender rnd)) +:+ "@example.com")
    ("Important Notification #" +:+ pretty (randint 1000 9999 (r_subject rnd)))
    ("This is a simulated email body for " +:+ addr +:+ ". " +:+ nl +:+ nl
       +:+ "Timestamp: " +:+ r_iso rnd +:+ "." +:+ nl +:+ nl
       +:+ "Lorem ipsum dolor sit amet, consectetur adipiscing elit. Sed non risus.").

(** [data] after [data["messages"].append(m)] (line 100). *)
Definition with_message (data : Inbox) (m : Message) : Inbox :=
  mkInbox (email_address data) (messages data ++ [m]) (expires_at data).

(** Line 101. *)
Definition new_email_line (addr : string) : Event :=
  PrintLine ("INFO: New email for " +:+ addr).

(** Lines 89 and 100 for a given key: [inboxes[k]["messages"].append(m)],
    where [m] may mention the address of the inbox.  [inbox_data] is the very
    object stored under [k], and there is no [await] between the two lines,
    so that appending to it is updating the entry of [k]. *)
Definition append_to_inbox (k : string) (mk : string → Message)
    : M (string * Message) :=
  d ← get_inboxes;
  inbox_data ← subscript d k;
  let m := mk (email_address inbox_data) in
  set_inboxes (<[k := with_message inbox_data m]>);;
  mret (email_address inbox_data, m).

(** What the generator holds while it waits for [send_json] (line 107). *)
Record PendingSend := mkPending {
  target_email_id : string;
  inbox_address : string;
  connection : WebSocket;
  sent : Message
}.

(** Lines 84-101: selection and append.  [None] is the [continue] of
    line 85. *)
Definition select_and_append (rnd : Randomness)
    : M (option (string * string * Message)) :=
  d ← get_inboxes;
  if bool_decide (d = ∅) then mret None
  else
    target_email_id ← choice (r_choice rnd) (map_to_list d).*1;
    am ← append_to_inbox target_email_id (new_email rnd);
    emit (new_email_line am.1);;
    mret (Some (target_email_id, am.1, am.2)).

(** Lines 104-107, up to the await. *)
Definition start_push (target_email_id addr : string) (m : Message)
    : M (option PendingSend) :=
  c ← get_connections;
  if contains c target_email_id then
    connection ← subscript c target_email_id;
    emit (SendJson connection m);;
    mret (Some (mkPending target_email_id addr connection m))
  else mret None.

(** The first segment of a cycle: lines 84-107. *)
Definition cycle_begin (rnd : Randomness) : M (option PendingSend) :=
  picked ← select_and_append rnd;
  match picked with
  | None => mret None
  | Some (target_email_id, addr, m) => start_push target_email_id addr m
  end.

(** The second segment: lines 108-111, given what [send_json] answered. *)
Definition cycle_resume (p : PendingSend) (send_answer : option exn) : M unit :=
  match send_answer with
  | None =>
      emit (PrintLine ("INFO: Sent email via WebSocket to client for "
                     +:+ inbox_address p))
  | Some WebSocketDisconnect => del_connection (target_email_id p)
  | Some e => raise e
  end.

(** ** The tasks running together

    The event loop runs one segment at a time.  An [Action] is one segment of
    one task together with what the environment answered; [run] is the effect
    of a schedule on the two dictionaries. *)

Inductive Action :=
| ANewEmail (id_draw first : UUID) (draws : list UUID) (now : Z)
| ACheckEmail (email_id : string)
| ADeleteEmail (email_id : string) (close_answer : option exn)
| ARefreshEmail (email_id : string) (now : Z)
| AWsConnect (websocket : WebSocket) (email_id : string)
| AWsRegister (websocket : WebSocket) (email_id : string)
| AWsLeave (websocket : WebSocket) (email_id : string) (e : exn)
| ACleanupTick (now : Z)
| ACycleBegin (rnd : Randomness)
| ACycleResume (p : PendingSend) (send_answer : option exn).

Definition exec (a : Action) (s : State) : State :=
  match a with
  | ANewEmail id_draw first draws now =>
      match generate_new_email id_draw first draws now s with
      | Some (_, s') => s'
      | None => s
      end
  | ACheckEmail email_id => (check_email_inbox email_id s).2
  | ADeleteEmail email_id close_answer => (delete_email email_id close_answer s).2
  | ARefreshEmail email_id now => (refresh_email_timer email_id now s).2
  | AWsConnect websocket email_id => (websocket_connect websocket email_id s).2
  | AWsRegister websocket email_id => (websocket_register websocket email_id s).2
  | AWsLeave websocket email_id e => (websocket_leave websocket email_id e s).2
  | ACleanupTick now => (cleanup_tick now s).2
  | ACycleBegin rnd => (cycle_begin rnd s).2
  | ACycleResume p send_answer => (cycle_resume p send_answer s).2
  end.

Definition run (schedule : list Action) (s : State) : State :=
  foldl (λ s a, exec a s) s schedule.

(** The identifier an action stores a new inbox under, if any. *)
Definition creates (email_id : string) (a : Action) : Prop :=
  match a with
  | ANewEmail id_draw _ _ _ => uuid_str id_draw = email_id
  | _ => False
  end.

(** The clock an action reads, if any. *)
Definition clock_of (a : Action) : option Z :=
  match a with
  | ANewEmail _ _ _ now => Some now
  | ARefreshEmail _ now => Some now
  | ACleanupTick now => Some now
  | _ => None
  end.

(** One turn of the generator's [while True] (lines 80-111), with what the
    other tasks do while it sleeps (line 82) and while it waits for
    [send_json] (line 107). *)
Record Cycle := mkCycle {
  c_sleeping : list Action;
  c_rnd : Randomness;
  c_sending : list Action;
  c_send_answer : option exn
}.

Definition one_cycle (c : Cycle) : M unit :=
  λ s,
    match cycle_begin (c_rnd c) (run (c_sleeping c) s) with
    | (Ret None, s1) => (Ret tt, s1)
    | (Ret (Some p), s1) =>
        cycle_resume p (c_send_answer c) (run (c_sending c) s1)
    | (Raise e, s1) => (Raise e, s1)
    end.

(** The task itself.  The loop has no exit: the task ends only when a cycle
    raises, and then the cycles that were to follow do not run.  [Ret tt]
    after the listed cycles means that the task is still alive. *)
Definition simulate_email_reception (cycles : list Cycle) : M unit :=
  for_each one_cycle cycles.

(** The reaper task (lines 51-73): one tick per turn, with what the other
    tasks do while it sleeps (line 57). *)
Definition cleanup_expired_inboxes (ticks : list (list Action * Z)) : M unit :=
  for_each (λ tick s, cleanup_tick tick.2 (run tick.1 s)) ticks.

(** One call of the WebSocket endpoint (lines 211-234), with what the other
    tasks do while it waits for [accept] and for [receive_text], what
    [accept] answers, and the exception that ends the receiving loop (the
    loop has no other exit). *)
Record Session := mkSession {
  ws_accepting : list Action;
  ws_accept_answer : option exn;
  ws_receiving : list Action;
  ws_receive_exn : exn
}.

Definition websocket_endpoint (websocket : WebSocket) (email_id : string)
    (ses : Session) : M unit :=
  λ s,
    match websocket_connect websocket email_id s with
    | (Ret true, s1) =>
        match ws_accept_answer ses with
        | Some e => (Raise e, run (ws_accepting ses) s1)
        | None =>
            match websocket_register websocket email_id
                    (run (ws_accepting ses) s1) with
            | (Ret _, s2) =>
                websocket_leave websocket email_id (ws_receive_exn ses)
                  (run (ws_receiving ses) s2)
            | (Raise e, s2) => (Raise e, s2)
            end
        end
    | (Ret false, s1) => (Ret tt, s1)
    | (Raise e, s1) => (Raise e, s1)
    end.

(** ** Properties of the state *)

(** No two inboxes of the registry have the same address. *)
Definition addresses_distinct (d : gmap string Inbox) : Prop :=
  ∀ i j x y, d !! i = Some x → d !! j = Some y →
    email_address x = email_address y → i = j.

(** [email_id] is due at [now] (the test of line 63). *)
Definition expired (d : gmap string Inbox) (now : Z) (email_id : string) : Prop :=
  ∃ data, d !! email_id = Some data ∧ expires_at data < now.

#[global] Instance expired_dec d now email_id : Decision (expired d now email_id).
Proof.
  unfold expired. destruct (d !! email_id) as [data|].
  - destruct (decide (expires_at data < now)).
    + left. eauto.
    + right. intros (x & [= <-] & ?). done.
  - right. intros (x & ? & ?). done.
Defined.


(** The first [n] values [uuid.uuid4()] returns when the generator behind it
    yields [rng 0], [rng 1], ... *)
Definition draws_of (rng : nat → UUID) (n : nat) : list UUID := rng <$> seq 0 n.

(** Every inbox is due at [T + TTL] at the latest. *)
Definition due_by (T : Z) (d : gmap string Inbox) : Prop :=
  ∀ k v, d !! k = Some v → expires_at v ≤ T + TTL.

(** No clock reading of the schedule is later than [T]. *)
Definition clocks_upto (T : Z) (schedule : list Action) : Prop :=
  Forall (λ a, ∀ t, clock_of a = Some t → t ≤ T) schedule.

(** ** A small scenario for the examples

    One inbox, created when the clock reads 0 from the draws 1 (identifier)
    and 0 (address); then a socket, numbered 7, subscribed to it. *)
Definition the_id : string := uuid_str 1%N.
Definition one_inbox : State := run [ANewEmail 1%N 0%N [] 0] initial.
Definition one_inbox_attached : State :=
  run [AWsConnect 7%nat the_id; AWsRegister 7%nat the_id] one_inbox.
Definition some_randomness : Randomness :=
  mkRandomness 0 2%N 23 456 "2024-01-01T00:00:00+00:00".

(** ** Further properties of the state *)

(** Every handle of [active_connections] is registered under the identifier
    of an inbox of the registry. *)
Definition handles_live (s : State) : Prop :=
  ∀ k ws, active_connections s !! k = Some ws → is_Some (inboxes s !! k).

(** Along the schedule, every registration (line 220) finds the inbox that
    the test of line 215 found: no other segment has removed it while the
    endpoint was waiting for [accept]. *)
Fixpoint registers_on_live (schedule : list Action) (s : State) : Prop :=
  match schedule with
  | [] => True
  | a :: rest =>
      match a with
      | AWsRegister _ email_id => is_Some (inboxes s !! email_id)
      | _ => True
      end ∧ registers_on_live rest (exec a s)
  end.

(** Where an effect on the outside world comes from: what segment [a], run
    in state [s], may do. *)
Definition accounted_for (a : Action) (s : State) (ev : Event) : Prop :=
  match ev with
  | PrintLine _ => True
  | Accept ws =>
      ∃ email_id, a = AWsConnect ws email_id ∧ is_Some (inboxes s !! email_id)
  | Close ws code =>
      (∃ email_id,
         a = AWsConnect ws email_id ∧ inboxes s !! email_id = None ∧
         code = 1008) ∨
      (∃ email_id close_answer,
         a = ADeleteEmail email_id close_answer ∧
         is_Some (inboxes s !! email_id) ∧
         active_connections s !! email_id = Some ws ∧ code = 1000)
  | SendJson ws m =>
      ∃ rnd target data,
        a = ACycleBegin rnd ∧
        active_connections s !! target = Some ws ∧
        inboxes (exec a s) !! target = Some data ∧
        last (messages data) = Some m
  end.

(** The 32 bits of a UUID that [.hex[:8]] shows. *)
Definition time_low (u : UUID) : N := ((u / 2 ^ 96) mod 2 ^ 32)%N.

(** The value of a hexadecimal digit as [hex_digit] writes it (16 for any
    other character). *)
Definition hex_value (c : ascii) : N :=
  match c with
  | "0" => 0 | "1" => 1 | "2" => 2 | "3" => 3 | "4" => 4 | "5" => 5
  | "6" => 6 | "7" => 7 | "8" => 8 | "9" => 9 | "a" => 10 | "b" => 11
  | "c" => 12 | "d" => 13 | "e" => 14 | "f" => 15 | _ => 16
  end%N%char.

(** Whether a segment is the first segment of a cycle of the generator.
    The program starts one generator task (line 121), and that task is in the
    middle of a cycle while it waits for [send_json]. *)
Definition begins_cycle (a : Action) : Prop :=
  match a with ACycleBegin _ => True | _ => False end.

(** * Proofs *)

Example uuid_str_ex :
  uuid_str 0x123e4567e89b42d3a456426614174000%N
  = "123e4567-e89b-42d3-a456-426614174000".
Proof. vm_compute. reflexivity. Qed.

Example create_ex :
  generate_new_email 1%N 2%N [] 0 initial =
  Some (Ret (NewEmailResponse "00000000-0000-0000-0000-000000000001"
                              "00000000@temp-inbox.com"),
        mkState {["00000000-0000-0000-0000-000000000001" :=
                    mkInbox "00000000@temp-inbox.com" [] 3600000000]} ∅
          [PrintLine "INFO: Created new email: 00000000@temp-inbox.com (ID: 00000000-0000-0000-0000-000000000001)"]).
Proof. vm_compute. reflexivity. Qed.

(** ** Running a segment *)

Lemma contains_Some {V} (d : gmap string V) k v :
  d !! k = Some v → contains d k = true.
Proof. intros H. unfold contains. rewrite bool_decide_eq_true, H. eauto. Qed.

Lemma contains_None {V} (d : gmap string V) k :
  d !! k = None → contains d k = false.
Proof.
  intros H. unfold contains. rewrite bool_decide_eq_false, H.
  apply is_Some_None.
Qed.

Lemma contains_true {V} (d : gmap string V) k :
  contains d k = true → is_Some (d !! k).
Proof. unfold contains. by rewrite bool_decide_eq_true. Qed.

Ltac unfold_m :=
  unfold del_inbox, del_connection, pop_connection, subscript,
    get_inboxes, get_connections, set_inboxes, set_connections, emit, raise,
    mbind, M_bind, mret, M_ret;
  cbn [inboxes active_connections trace].

(** Decide membership tests from the lookups at hand, and go on. *)
Ltac by_lookup :=
  repeat (match goal with
  | H : ?d !! ?k = Some _ |- context [contains ?d ?k] =>
      rewrite (contains_Some d k _ H)
  | H : ?d !! ?k = None |- context [contains ?d ?k] =>
      rewrite (contains_None d k H)
  | H : ?d !! ?k = _ |- context [?d !! ?k] => rewrite H
  end; cbn [inboxes active_connections trace negb]).

(** ** The three request handlers that take an identifier *)

Lemma check_email_inbox_absent s email_id :
  inboxes s !! email_id = None →
  check_email_inbox email_id s = (Raise not_found_expired, s).
Proof. intros H. unfold check_email_inbox. unfold_m. by by_lookup. Qed.

Lemma check_email_inbox_live s email_id data :
  inboxes s !! email_id = Some data →
  check_email_inbox email_id s = (Ret (InboxResponse (messages data)), s).
Proof. intros H. unfold check_email_inbox. unfold_m. by by_lookup. Qed.

Lemma refresh_email_timer_absent s email_id now :
  inboxes s !! email_id = None →
  refresh_email_timer email_id now s = (Raise not_found_expired, s).
Proof. intros H. unfold refresh_email_timer. unfold_m. by by_lookup. Qed.

Lemma refresh_email_timer_live s email_id now data :
  inboxes s !! email_id = Some data →
  refresh_email_timer email_id now s =
    (Ret (MessageResponse ("Timer for " +:+ email_address data
                             +:+ " has been reset to one hour.")),
     mkState
       (<[email_id := mkInbox (email_address data) (messages data) (now + TTL)]>
          (inboxes s))
       (active_connections s)
       (trace s ++ [PrintLine ("INFO: Refreshed timer for: "
                                 +:+ email_address data
                                 +:+ " (ID: " +:+ email_id +:+ ")")])).
Proof.
  intros H. unfold refresh_email_timer. unfold_m. by_lookup.
  by rewrite lookup_insert_eq.
Qed.

Lemma delete_email_absent s email_id close_answer :
  inboxes s !! email_id = None →
  delete_email email_id close_answer s = (Raise not_found_deleted, s).
Proof. intros H. unfold delete_email. unfold_m. by by_lookup. Qed.

Lemma delete_email_unattached s email_id close_answer data :
  inboxes s !! email_id = Some data →
  active_connections s !! email_id = None →
  delete_email email_id close_answer s =
    (Ret (deleted_response (email_address data)),
     mkState (delete email_id (inboxes s)) (active_connections s)
       (trace s ++ [deleted_line (email_address data) email_id])).
Proof.
  intros H Hc. unfold delete_email. unfold_m. by by_lookup.
Qed.

Lemma delete_email_attached s email_id close_answer data ws :
  inboxes s !! email_id = Some data →
  active_connections s !! email_id = Some ws →
  delete_email email_id close_answer s =
    match close_answer with
    | None | Some RuntimeError =>
        (Ret (deleted_response (email_address data)),
         mkState (delete email_id (inboxes s))
           (delete email_id (active_connections s))
           (trace s ++ [Close ws 1000;
                        deleted_line (email_address data) email_id]))
    | Some e =>
        (Raise e,
         mkState (delete email_id (inboxes s))
           (delete email_id (active_connections s))
           (trace s ++ [Close ws 1000]))
    end.
Proof.
  intros H Hc. unfold delete_email. unfold_m. by_lookup.
  destruct close_answer as [[]|]; simpl; by rewrite <- ?app_assoc.
Qed.

(** ** The WebSocket endpoint *)

Lemma websocket_connect_absent s websocket email_id :
  inboxes s !! email_id = None →
  websocket_connect websocket email_id s =
    (Ret false,
     mkState (inboxes s) (active_connections s)
       (trace s ++ [Close websocket 1008])).
Proof. intros H. unfold websocket_connect. unfold_m. by by_lookup. Qed.

Lemma websocket_connect_live s websocket email_id data :
  inboxes s !! email_id = Some data →
  websocket_connect websocket email_id s =
    (Ret true,
     mkState (inboxes s) (active_connections s) (trace s ++ [Accept websocket])).
Proof. intros H. unfold websocket_connect. unfold_m. by by_lookup. Qed.

Lemma websocket_register_eq s websocket email_id :
  websocket_register websocket email_id s =
    (Ret tt,
     mkState (inboxes s) (<[email_id := websocket]> (active_connections s))
       (trace s ++ [PrintLine ("INFO: WebSocket connected for email ID: "
                                 +:+ email_id)])).
Proof. reflexivity. Qed.

(** The [finally] block never raises, and leaves no handle under the
    identifier, whichever handle that was. *)
Lemma websocket_finally_eq s websocket email_id :
  websocket_finally websocket email_id s =
    (Ret tt,
     mkState (inboxes s) (delete email_id (active_connections s)) (trace s)).
Proof.
  unfold websocket_finally. unfold_m.
  destruct (active_connections s !! email_id) as [ws|] eqn:Hc; by_lookup.
  - done.
  - rewrite delete_id by done. by destruct s.
Qed.

Lemma websocket_leave_inboxes s websocket email_id e :
  inboxes (websocket_leave websocket email_id e s).2 = inboxes s.
Proof.
  unfold websocket_leave, mbind, M_bind, emit, raise.
  destruct e; by rewrite websocket_finally_eq.
Qed.

Lemma websocket_leave_connections s websocket email_id e :
  active_connections (websocket_leave websocket email_id e s).2
  = delete email_id (active_connections s).
Proof.
  unfold websocket_leave, mbind, M_bind, emit, raise.
  destruct e; by rewrite websocket_finally_eq.
Qed.

(** ** The reaper *)

Lemma elem_of_expired_ids d now email_id :
  email_id ∈ expired_ids d now ↔ expired d now email_id.
Proof.
  unfold expired_ids, expired. rewrite list_elem_of_fmap. split.
  - intros ([k v] & -> & Hin). apply list_elem_of_filter in Hin as [Hlt Hin].
    apply elem_of_map_to_list in Hin. eauto.
  - intros (data & Hd & Hlt). exists (email_id, data). split; [done|].
    apply list_elem_of_filter. split; [done|]. by apply elem_of_map_to_list.
Qed.

Lemma NoDup_expired_ids d now : NoDup (expired_ids d now).
Proof.
  unfold expired_ids.
  eapply sublist_NoDup; [apply (NoDup_fst_map_to_list d)|].
  apply fmap_sublist, sublist_filter.
Qed.

Lemma reap_one_live s email_id data :
  inboxes s !! email_id = Some data →
  reap_one email_id s =
    (Ret tt,
     mkState (delete email_id (inboxes s))
       (delete email_id (active_connections s))
       (trace s ++ [PrintLine ("INFO: Deleting expired inbox for "
                                 +:+ email_address data)])).
Proof.
  intros H. unfold reap_one. unfold_m. by_lookup.
  destruct (active_connections s !! email_id) as [ws|] eqn:Hc; by_lookup.
  - done.
  - by rewrite (delete_id (active_connections s)).
Qed.

Lemma reap_one_absent s email_id :
  inboxes s !! email_id = None → reap_one email_id s = (Raise KeyError, s).
Proof. intros H. unfold reap_one. unfold_m. by by_lookup. Qed.

(** The loop of lines 67-73 over identifiers that are all present and all
    different: it comes to its end, removes exactly these identifiers from
    both dictionaries, and prints. *)
Lemma for_each_reap_one l : ∀ s,
  NoDup l →
  (∀ k, k ∈ l → is_Some (inboxes s !! k)) →
  ∃ s' lines,
    for_each reap_one l s = (Ret tt, s') ∧
    (∀ k, inboxes s' !! k = if decide (k ∈ l) then None else inboxes s !! k) ∧
    (∀ k, active_connections s' !! k =
            if decide (k ∈ l) then None else active_connections s !! k) ∧
    trace s' = trace s ++ (PrintLine <$> lines).
Proof.
  induction l as [|x l IH]; intros s Hnd Hin.
  - exists s, []. cbn. rewrite app_nil_r. repeat split; intros k;
      by rewrite decide_False by apply not_elem_of_nil.
  - apply NoDup_cons in Hnd as [Hx Hnd].
    destruct (Hin x) as [data Hdata]; [left|].
    cbn [for_each]. unfold mbind at 1, M_bind at 1.
    rewrite (reap_one_live _ _ _ Hdata).
    edestruct IH as (s' & lines & -> & Hi & Hc & Ht); [done| |].
    { intros k Hk. cbn [inboxes]. rewrite lookup_delete_ne.
      - apply Hin. by right.
      - intros ->. done. }
    cbn [inboxes active_connections trace] in *.
    eexists s', (_ :: lines). split; [done|]. repeat split.
    + intros k. rewrite Hi. destruct (decide (k = x)) as [->|Hne].
      * rewrite lookup_delete_eq, (decide_True _ _ (list_elem_of_here _ _)).
        by destruct (decide _).
      * rewrite lookup_delete_ne by done.
        destruct (decide (k ∈ l)) as [Hk|Hk].
        -- rewrite decide_True; [done|by right].
        -- rewrite decide_False; [done|]. by intros [?|?]%elem_of_cons.
    + intros k. rewrite Hc. destruct (decide (k = x)) as [->|Hne].
      * rewrite lookup_delete_eq, (decide_True _ _ (list_elem_of_here _ _)).
        by destruct (decide _).
      * rewrite lookup_delete_ne by done.
        destruct (decide (k ∈ l)) as [Hk|Hk].
        -- rewrite decide_True; [done|by right].
        -- rewrite decide_False; [done|]. by intros [?|?]%elem_of_cons.
    + rewrite Ht, <- app_assoc. done.
Qed.

Lemma cleanup_tick_eq s now :
  ∃ s' lines,
    cleanup_tick now s = (Ret tt, s') ∧
    (∀ k, inboxes s' !! k =
            if decide (expired (inboxes s) now k) then None else inboxes s !! k) ∧
    (∀ k, active_connections s' !! k =
            if decide (expired (inboxes s) now k) then None
            else active_connections s !! k) ∧
    trace s' = trace s ++ (PrintLine <$> lines).
Proof.
  unfold cleanup_tick. unfold_m.
  destruct (for_each_reap_one (expired_ids (inboxes s) now) s)
    as (s' & lines & Hrun & Hi & Hc & Ht).
  - apply NoDup_expired_ids.
  - intros k (data & Hd & _)%elem_of_expired_ids. eauto.
  - exists s', lines. split; [done|]. repeat split; [| |done].
    + intros k. rewrite Hi.
      destruct (decide (k ∈ _)) as [Hk|Hk], (decide (expired _ _ _)) as [He|He];
        try done; exfalso.
      * by apply He, elem_of_expired_ids.
      * by apply Hk, elem_of_expired_ids.
    + intros k. rewrite Hc.
      destruct (decide (k ∈ _)) as [Hk|Hk], (decide (expired _ _ _)) as [He|He];
        try done; exfalso.
      * by apply He, elem_of_expired_ids.
      * by apply Hk, elem_of_expired_ids.
Qed.

(** ** Creation: the address loop *)

Section address_loop.
Context (d : gmap string Inbox).

Lemma address_taken_true addr :
  address_taken d addr = true ↔
  ∃ k v, d !! k = Some v ∧ email_address v = addr.
Proof.
  unfold address_taken. rewrite bool_decide_eq_true, Exists_exists. split.
  - intros ([k v] & Hin%elem_of_map_to_list & Heq). eauto.
  - intros (k & v & Hin & Heq). exists (k, v).
    split; [by apply elem_of_map_to_list|done].
Qed.

Lemma address_taken_false addr :
  address_taken d addr = false ↔
  ∀ k v, d !! k = Some v → email_address v ≠ addr.
Proof.
  rewrite <- not_true_iff_false, address_taken_true. split.
  - intros Hno k v Hk Heq. apply Hno. eauto.
  - intros Hall (k & v & Hk & Heq). by eapply Hall.
Qed.

(** When the loop ends, it ends on an address no inbox has. *)
Lemma regenerate_fresh draws : ∀ addr a,
  regenerate d addr draws = Some a → address_taken d a = false.
Proof.
  induction draws as [|u rest IH]; intros addr a; cbn [regenerate];
    destruct (address_taken d addr) eqn:Ht; try done.
  - by intros [= <-].
  - apply IH.
  - by intros [= <-].
Qed.

(** More draws do not change where the loop ended. *)
Lemma regenerate_more draws more : ∀ addr a,
  regenerate d addr draws = Some a → regenerate d addr (draws ++ more) = Some a.
Proof.
  induction draws as [|u rest IH]; intros addr a; cbn [regenerate app];
    destruct (address_taken d addr) eqn:Ht; try done.
  - destruct more; cbn [regenerate]; by rewrite Ht.
  - apply IH.
Qed.

(** The loop ends at the latest on the first draw whose address is free. *)
Lemma regenerate_hit u before : ∀ addr,
  address_taken d (address_of u) = false →
  is_Some (regenerate d addr (before ++ [u])).
Proof.
  induction before as [|v rest IH]; intros addr Hu; cbn [regenerate app];
    destruct (address_taken d addr) eqn:Ht; eauto.
  by rewrite Hu.
Qed.

(** As long as every draw gives the first, taken, address again, the loop
    goes on. *)
Lemma regenerate_stuck u n :
  address_taken d (address_of u) = true →
  regenerate d (address_of u) (draws_of (λ _, u) n) = None.
Proof.
  intros Ht. unfold draws_of. generalize 0%nat.
  induction n as [|n IH]; intros k; cbn [seq fmap list_fmap regenerate];
    rewrite Ht; [done|apply IH].
Qed.

End address_loop.

Lemma draws_of_S rng n : draws_of rng (S n) = draws_of rng n ++ [rng n].
Proof. unfold draws_of. by rewrite seq_S, fmap_app. Qed.

Lemma draws_of_le rng n m :
  (n ≤ m)%nat → ∃ more, draws_of rng m = draws_of rng n ++ more.
Proof.
  intros Hle. unfold draws_of. exists (rng <$> seq n (m - n)).
  rewrite <- fmap_app, <- seq_app. do 2 f_equal. lia.
Qed.

Lemma generate_new_email_eq id_draw first draws now s addr :
  regenerate (inboxes s) (address_of first) draws = Some addr →
  generate_new_email id_draw first draws now s =
    Some (Ret (NewEmailResponse (uuid_str id_draw) addr),
          mkState
            (<[uuid_str id_draw := mkInbox addr [] (now + TTL)]> (inboxes s))
            (active_connections s)
            (trace s ++ [PrintLine ("INFO: Created new email: " +:+ addr
                           +:+ " (ID: " +:+ uuid_str id_draw +:+ ")")])).
Proof. intros H. unfold generate_new_email. by rewrite H. Qed.

(** ** The generator *)

Lemma choice_keys r (d : gmap string Inbox) s :
  d ≠ ∅ →
  ∃ k v, (map_to_list d).*1 !! (r mod length (map_to_list d).*1)%nat = Some k ∧
         d !! k = Some v ∧
         choice r (map_to_list d).*1 s = (Ret k, s).
Proof.
  intros Hne. unfold choice.
  assert (length (map_to_list d).*1 ≠ 0%nat) as Hlen.
  { rewrite length_fmap. intros Hnil%length_zero_iff_nil.
    by apply map_to_list_empty_iff in Hnil. }
  destruct (lookup_lt_is_Some_2 (map_to_list d).*1
              (r mod length (map_to_list d).*1)%nat) as [k Hk].
  { by apply Nat.mod_upper_bound. }
  assert (k ∈ (map_to_list d).*1) as Hin by by eapply list_elem_of_lookup_2.
  apply list_elem_of_fmap in Hin as ([k' v] & -> & Hin).
  apply elem_of_map_to_list in Hin. exists k', v. by rewrite Hk.
Qed.

Lemma append_to_inbox_live k mk s data :
  inboxes s !! k = Some data →
  append_to_inbox k mk s =
    (Ret (email_address data, mk (email_address data)),
     mkState (<[k := with_message data (mk (email_address data))]> (inboxes s))
       (active_connections s) (trace s)).
Proof. intros H. unfold append_to_inbox. unfold_m. by by_lookup. Qed.

Lemma append_to_inbox_absent k mk s :
  inboxes s !! k = None → append_to_inbox k mk s = (Raise KeyError, s).
Proof. intros H. unfold append_to_inbox. unfold_m. by by_lookup. Qed.

Lemma select_and_append_empty rnd s :
  inboxes s = ∅ → select_and_append rnd s = (Ret None, s).
Proof.
  intros H. unfold select_and_append. unfold_m.
  by rewrite bool_decide_eq_true_2.
Qed.

Lemma select_and_append_nonempty rnd s :
  inboxes s ≠ ∅ →
  ∃ target data,
    (map_to_list (inboxes s)).*1
      !! (r_choice rnd mod length (map_to_list (inboxes s)).*1)%nat
      = Some target ∧
    inboxes s !! target = Some data ∧
    select_and_append rnd s =
      (Ret (Some (target, email_address data,
                  new_email rnd (email_address data))),
       mkState
         (<[target := with_message data (new_email rnd (email_address data))]>
            (inboxes s))
         (active_connections s)
         (trace s ++ [new_email_line (email_address data)])).
Proof.
  intros Hne.
  destruct (choice_keys (r_choice rnd) (inboxes s) s Hne)
    as (k & v & Hsel & Hk & Hch).
  exists k, v. do 2 (split; [done|]).
  unfold select_and_append.
  unfold mbind at 1, M_bind at 1, get_inboxes at 1.
  rewrite bool_decide_eq_false_2 by done.
  unfold mbind at 1, M_bind at 1. rewrite Hch.
  unfold mbind at 1, M_bind at 1.
  by rewrite (append_to_inbox_live _ _ _ _ Hk).
Qed.

Lemma start_push_attached target addr m s ws :
  active_connections s !! target = Some ws →
  start_push target addr m s =
    (Ret (Some (mkPending target addr ws m)),
     mkState (inboxes s) (active_connections s) (trace s ++ [SendJson ws m])).
Proof. intros H. unfold start_push. unfold_m. by by_lookup. Qed.

Lemma start_push_unattached target addr m s :
  active_connections s !! target = None →
  start_push target addr m s = (Ret None, s).
Proof. intros H. unfold start_push. unfold_m. by by_lookup. Qed.

Lemma cycle_begin_split rnd s :
  cycle_begin rnd s =
    match select_and_append rnd s with
    | (Ret None, s1) => (Ret None, s1)
    | (Ret (Some (target, addr, m)), s1) => start_push target addr m s1
    | (Raise e, s1) => (Raise e, s1)
    end.
Proof.
  unfold cycle_begin, mbind, M_bind.
  by destruct (select_and_append rnd s) as [[[[[? ?] ?]|]|] ?].
Qed.

(** The second segment of a cycle leaves the inboxes as they are, whatever
    [send_json] answered. *)
Lemma cycle_resume_inboxes p send_answer s :
  inboxes (cycle_resume p send_answer s).2 = inboxes s.
Proof.
  unfold cycle_resume. unfold_m.
  destruct send_answer as [[]|]; try done.
  by destruct (active_connections s !! target_email_id p).
Qed.

Lemma cycle_resume_sent p s :
  cycle_resume p None s =
    (Ret tt,
     mkState (inboxes s) (active_connections s)
       (trace s ++ [PrintLine ("INFO: Sent email via WebSocket to client for "
                                 +:+ inbox_address p)])).
Proof. reflexivity. Qed.

Lemma cycle_resume_disconnect_attached p s ws :
  active_connections s !! target_email_id p = Some ws →
  cycle_resume p (Some WebSocketDisconnect) s =
    (Ret tt,
     mkState (inboxes s) (delete (target_email_id p) (active_connections s))
       (trace s)).
Proof. intros H. unfold cycle_resume. unfold_m. by by_lookup. Qed.

Lemma cycle_resume_disconnect_detached p s :
  active_connections s !! target_email_id p = None →
  cycle_resume p (Some WebSocketDisconnect) s = (Raise KeyError, s).
Proof. intros H. unfold cycle_resume. unfold_m. by by_lookup. Qed.

Lemma cycle_resume_other p s e :
  e ≠ WebSocketDisconnect →
  cycle_resume p (Some e) s = (Raise e, s).
Proof. intros H. unfold cycle_resume. by destruct e. Qed.

(** The reaper task never ends: no tick raises, whatever the other tasks
    do between the ticks. *)
Lemma cleanup_expired_inboxes_never_raises ticks : ∀ s,
  (cleanup_expired_inboxes ticks s).1 = Ret tt.
Proof.
  unfold cleanup_expired_inboxes.
  induction ticks as [|tick rest IH]; intros s; [done|].
  cbn [for_each]. unfold mbind, M_bind.
  destruct (cleanup_tick_eq (run tick.1 s) tick.2) as (s' & lines & -> & _).
  apply IH.
Qed.

(** ** What one segment does to the inboxes *)

Lemma check_email_inbox_state email_id s : (check_email_inbox email_id s).2 = s.
Proof.
  destruct (inboxes s !! email_id) as [data|] eqn:H.
  - by rewrite (check_email_inbox_live _ _ _ H).
  - by rewrite (check_email_inbox_absent _ _ H).
Qed.

Lemma delete_email_inboxes email_id close_answer s :
  inboxes (delete_email email_id close_answer s).2 = delete email_id (inboxes s).
Proof.
  destruct (inboxes s !! email_id) as [data|] eqn:H.
  - destruct (active_connections s !! email_id) as [ws|] eqn:Hc.
    + rewrite (delete_email_attached _ _ _ _ _ H Hc).
      by destruct close_answer as [[]|].
    + by rewrite (delete_email_unattached _ _ _ _ H Hc).
  - by rewrite (delete_email_absent _ _ _ H), delete_id.
Qed.

Lemma cycle_begin_inboxes rnd s :
  inboxes (cycle_begin rnd s).2 = inboxes s ∨
  ∃ target data,
    inboxes s !! target = Some data ∧
    inboxes (cycle_begin rnd s).2 =
      <[target := with_message data (new_email rnd (email_address data))]>
        (inboxes s).
Proof.
  rewrite cycle_begin_split.
  destruct (decide (inboxes s = ∅)) as [He|Hne].
  - left. by rewrite (select_and_append_empty _ _ He).
  - right.
    destruct (select_and_append_nonempty rnd s Hne)
      as (target & data & _ & Hk & ->).
    exists target, data. split; [done|].
    destruct (active_connections s !! target) as [ws|] eqn:Hc.
    + by erewrite start_push_attached.
    + by erewrite start_push_unattached.
Qed.

(** An inbox found after a segment was there before it, with the same
    address and with the same deadline unless the segment read the clock; or
    the segment has just created it, empty, under an address no inbox had. *)
Lemma exec_entry a s k v' :
  inboxes (exec a s) !! k = Some v' →
  (∃ v, inboxes s !! k = Some v ∧ email_address v = email_address v' ∧
        (expires_at v' = expires_at v ∨
         ∃ t, clock_of a = Some t ∧ expires_at v' = t + TTL))
  ∨ (creates k a ∧ messages v' = [] ∧
     (∃ t, clock_of a = Some t ∧ expires_at v' = t + TTL) ∧
     address_taken (inboxes s) (email_address v') = false).
Proof.
  destruct a as [id_draw first draws now|email_id|email_id close_answer
                |email_id now|ws email_id|ws email_id|ws email_id e
                |now|rnd|p send_answer]; cbn [exec creates clock_of].
  - destruct (regenerate (inboxes s) (address_of first) draws) as [addr|] eqn:Hr.
    + rewrite (generate_new_email_eq _ _ _ _ _ _ Hr). cbn [inboxes].
      destruct (decide (uuid_str id_draw = k)) as [<-|Hne].
      * rewrite lookup_insert_eq. intros [= <-]. right. cbn.
        repeat split; eauto using regenerate_fresh.
      * rewrite lookup_insert_ne by done. intros H. left. eauto.
    + unfold generate_new_email. rewrite Hr. intros H. left. eauto.
  - rewrite check_email_inbox_state. intros H. left. eauto.
  - rewrite delete_email_inboxes. intros [Hne H]%lookup_delete_Some.
    left. eauto.
  - destruct (inboxes s !! email_id) as [data|] eqn:Hd.
    + rewrite (refresh_email_timer_live _ _ _ _ Hd). cbn [inboxes snd].
      destruct (decide (email_id = k)) as [<-|Hne].
      * rewrite lookup_insert_eq. intros [= <-]. left. cbn. eauto 10.
      * rewrite lookup_insert_ne by done. intros H. left. eauto.
    + rewrite (refresh_email_timer_absent _ _ _ Hd). intros H. left. eauto.
  - unfold websocket_connect. unfold_m.
    destruct (contains (inboxes s) email_id); cbn; intros H; left; eauto.
  - intros H. left. eauto.
  - rewrite websocket_leave_inboxes. intros H. left. eauto.
  - destruct (cleanup_tick_eq s now) as (s' & lines & -> & Hi & _).
    cbn [snd]. rewrite Hi. destruct (decide _); [done|]. intros H. left. eauto.
  - destruct (cycle_begin_inboxes rnd s) as [->|(target & data & Hd & ->)].
    + intros H. left. eauto.
    + destruct (decide (target = k)) as [<-|Hne].
      * rewrite lookup_insert_eq. intros [= <-]. left. cbn. eauto.
      * rewrite lookup_insert_ne by done. intros H. left. eauto.
  - rewrite cycle_resume_inboxes. intros H. left. eauto.
Qed.

(** An identifier that is not in the registry stays out of it until it is
    created again. *)
Lemma exec_absent a s k :
  inboxes s !! k = None → ¬ creates k a → inboxes (exec a s) !! k = None.
Proof.
  intros Hk Hc. destruct (inboxes (exec a s) !! k) as [v'|] eqn:H; [|done].
  apply exec_entry in H as [(v & Hv & _)|(Hcr & _)]; [congruence|done].
Qed.

Lemma run_absent schedule : ∀ s k,
  inboxes s !! k = None → Forall (λ a, ¬ creates k a) schedule →
  inboxes (run schedule s) !! k = None.
Proof.
  induction schedule as [|a rest IH]; intros s k Hk Hall; [done|].
  apply Forall_cons in Hall as [Ha Hrest]. cbn [run foldl].
  apply IH; [|done]. by apply exec_absent.
Qed.

Lemma exec_addresses_distinct a s :
  addresses_distinct (inboxes s) → addresses_distinct (inboxes (exec a s)).
Proof.
  intros Hd i j x y Hi Hj Heq.
  apply exec_entry in Hi as [(x0 & Hx0 & Hax & _)|(Hci & _ & _ & Hfresh)];
    apply exec_entry in Hj as [(y0 & Hy0 & Hay & _)|(Hcj & _ & _ & Hfresh')].
  - eapply Hd; [done..|congruence].
  - exfalso. rewrite address_taken_false in Hfresh'.
    eapply Hfresh'; [done|congruence].
  - exfalso. rewrite address_taken_false in Hfresh.
    eapply Hfresh; [done|congruence].
  - destruct a; try done. cbn in Hci, Hcj. congruence.
Qed.

Lemma run_addresses_distinct schedule : ∀ s,
  addresses_distinct (inboxes s) →
  addresses_distinct (inboxes (run schedule s)).
Proof.
  induction schedule as [|a rest IH]; intros s Hd; [done|].
  cbn [run foldl]. by apply IH, exec_addresses_distinct.
Qed.

Lemma addresses_distinct_initial : addresses_distinct (inboxes initial).
Proof. intros i j x y Hi. cbn in Hi. by rewrite lookup_empty in Hi. Qed.

Lemma exec_due_by T a s :
  (∀ t, clock_of a = Some t → t ≤ T) →
  due_by T (inboxes s) → due_by T (inboxes (exec a s)).
Proof.
  intros Hclock Hd k v' Hk.
  apply exec_entry in Hk
    as [(v & Hv & _ & [->|(t & Ht & ->)])|(_ & _ & (t & Ht & ->) & _)].
  - by eapply Hd.
  - specialize (Hclock t Ht). lia.
  - specialize (Hclock t Ht). lia.
Qed.

Lemma run_due_by T schedule : ∀ s,
  clocks_upto T schedule →
  due_by T (inboxes s) → due_by T (inboxes (run schedule s)).
Proof.
  induction schedule as [|a rest IH]; intros s Hall Hd; [done|].
  apply Forall_cons in Hall as [Ha Hrest]. cbn [run foldl].
  apply IH; [done|]. by apply exec_due_by.
Qed.

Example the_id_eq : the_id = "00000000-0000-0000-0000-000000000001".
Proof. vm_compute. reflexivity. Qed.

Example one_inbox_attached_eq :
  one_inbox_attached =
    mkState {[the_id := mkInbox "00000000@temp-inbox.com" [] TTL]}
            {[the_id := 7%nat]}
            [PrintLine "INFO: Created new email: 00000000@temp-inbox.com (ID: 00000000-0000-0000-0000-000000000001)";
             Accept 7%nat;
             PrintLine "INFO: WebSocket connected for email ID: 00000000-0000-0000-0000-000000000001"].
Proof. vm_compute. reflexivity. Qed.

(** A cycle on the inbox without subscriber: the message is stored and can
    be read back. *)
Example cycle_then_check :
  check_email_inbox the_id (run [ACycleBegin some_randomness] one_inbox) =
  (Ret (InboxResponse
          [mkMessage "00000000-0000-0000-0000-000000000002"
             "service-123@example.com"
             "Important Notification #1456"
             (new_email some_randomness "00000000@temp-inbox.com").(body)]),
   run [ACycleBegin some_randomness] one_inbox).
Proof. vm_compute. reflexivity. Qed.

(** With a second socket subscribed after the first, a push goes to the
    second one only. *)
Example push_goes_to_last_subscriber :
  let s := run [AWsConnect 8%nat the_id; AWsRegister 8%nat the_id]
             one_inbox_attached in
  ∃ p s1,
    cycle_begin some_randomness s = (Ret (Some p), s1) ∧
    connection p = 8%nat ∧
    trace s1 = trace s ++ [new_email_line "00000000@temp-inbox.com";
                           SendJson 8%nat (sent p)].
Proof. do 2 eexists. vm_compute. done. Qed.

(** * The properties of the specification *)

(** ** C10 *)

(** C10.  In a cycle that finds the registry non-empty, the key the
    generator selects is a key of the registry, the lookup of line 89 finds
    its inbox, the append of line 100 stores the new message at the end of
    that inbox, and the whole first segment of the cycle (lines 84-107)
    returns without raising: no [KeyError] or [IndexError] is reachable
    between the selection and the append. *)
Theorem selected_inbox_is_present rnd s :
  inboxes s ≠ ∅ →
  ∃ target data s1,
    target ∈ (map_to_list (inboxes s)).*1 ∧
    inboxes s !! target = Some data ∧
    select_and_append rnd s =
      (Ret (Some (target, email_address data,
                  new_email rnd (email_address data))), s1) ∧
    inboxes s1 !! target =
      Some (with_message data (new_email rnd (email_address data))) ∧
    ∃ pending s2, cycle_begin rnd s = (Ret pending, s2).
Proof.
  intros Hne.
  destruct (select_and_append_nonempty rnd s Hne)
    as (target & data & Hsel & Hk & Hrun).
  exists target, data. eexists. split_and!; [|done|done|..].
  - by eapply list_elem_of_lookup_2.
  - cbn [inboxes]. by rewrite lookup_insert_eq.
  - rewrite cycle_begin_split, Hrun.
    destruct (active_connections s !! target) as [ws|] eqn:Hc.
    + erewrite start_push_attached by done. eauto.
    + erewrite start_push_unattached by done. eauto.
Qed.

Lemma selected_inbox_is_present_witness :
  ∃ target data s1,
    target ∈ (map_to_list (inboxes one_inbox)).*1 ∧
    inboxes one_inbox !! target = Some data ∧
    select_and_append some_randomness one_inbox =
      (Ret (Some (target, email_address data,
                  new_email some_randomness (email_address data))), s1) ∧
    inboxes s1 !! target =
      Some (with_message data (new_email some_randomness (email_address data))) ∧
    ∃ pending s2, cycle_begin some_randomness one_inbox = (Ret pending, s2).
Proof.
  apply (selected_inbox_is_present some_randomness one_inbox).
  vm_compute. discriminate.
Defined.

(** ** C2 *)

(** The cycle on its own terms: the append comes before the push, and when
    nothing else runs while the push is waited for, the message can still be
    read after the push has failed. *)
Lemma message_kept_without_interleaving rnd s p s1 e :
  cycle_begin rnd s = (Ret (Some p), s1) →
  ∃ s_mid data,
    select_and_append rnd s =
      (Ret (Some (target_email_id p, inbox_address p, sent p)), s_mid) ∧
    trace s_mid = trace s ++ [new_email_line (inbox_address p)] ∧
    inboxes s_mid !! target_email_id p = Some data ∧
    last (messages data) = Some (sent p) ∧
    s1 = mkState (inboxes s_mid) (active_connections s_mid)
           (trace s_mid ++ [SendJson (connection p) (sent p)]) ∧
    inboxes (cycle_resume p (Some e) s1).2 = inboxes s_mid ∧
    check_email_inbox (target_email_id p) (cycle_resume p (Some e) s1).2 =
      (Ret (InboxResponse (messages data)), (cycle_resume p (Some e) s1).2).
Proof.
  rewrite cycle_begin_split.
  destruct (decide (inboxes s = ∅)) as [He|Hne].
  { by rewrite (select_and_append_empty _ _ He). }
  destruct (select_and_append_nonempty rnd s Hne)
    as (target & data & _ & Hk & ->).
  destruct (active_connections s !! target) as [ws|] eqn:Hc.
  - erewrite start_push_attached by done. intros [= <- <-].
    cbn [target_email_id inbox_address sent connection].
    eexists _, (with_message data _). split_and!; try done.
    + cbn [inboxes]. by rewrite lookup_insert_eq.
    + cbn. by rewrite last_snoc.
    + by rewrite cycle_resume_inboxes.
    + apply check_email_inbox_live. rewrite cycle_resume_inboxes.
      cbn [inboxes]. by rewrite lookup_insert_eq.
  - by erewrite start_push_unattached.
Qed.

(** A segment that neither creates the identifier again nor is the append
    of the generator leaves an inbox the messages it has. *)
Lemma exec_messages_kept a s k v v' :
  inboxes s !! k = Some v → inboxes (exec a s) !! k = Some v' →
  ¬ creates k a → ¬ begins_cycle a →
  messages v' = messages v.
Proof.
  intros Hv.
  destruct a as [id_draw first draws now|email_id|email_id close_answer
                |email_id now|w email_id|w email_id|w email_id e
                |now|rnd|p send_answer];
    cbn [exec creates begins_cycle]; intros H Hcr Hcy.
  - destruct (regenerate (inboxes s) (address_of first) draws)
      as [addr|] eqn:Hr.
    + rewrite (generate_new_email_eq _ _ _ _ _ _ Hr) in H. cbn [inboxes] in H.
      rewrite lookup_insert_ne in H by done. by simplify_eq.
    + unfold generate_new_email in H. rewrite Hr in H. by simplify_eq.
  - rewrite check_email_inbox_state in H. by simplify_eq.
  - rewrite delete_email_inboxes in H.
    apply lookup_delete_Some in H as [_ H]. by simplify_eq.
  - destruct (inboxes s !! email_id) as [data|] eqn:Hd.
    + rewrite (refresh_email_timer_live _ _ _ _ Hd) in H.
      cbn [inboxes snd] in H.
      destruct (decide (email_id = k)) as [->|Hne].
      * rewrite lookup_insert_eq in H. by simplify_eq.
      * rewrite lookup_insert_ne in H by done. by simplify_eq.
    + rewrite (refresh_email_timer_absent _ _ _ Hd) in H. cbn [snd] in H.
      by simplify_eq.
  - destruct (inboxes s !! email_id) as [data|] eqn:Hd.
    + rewrite (websocket_connect_live _ _ _ _ Hd) in H.
      cbn [inboxes snd] in H. by simplify_eq.
    + rewrite (websocket_connect_absent _ _ _ Hd) in H.
      cbn [inboxes snd] in H. by simplify_eq.
  - rewrite websocket_register_eq in H. cbn [inboxes snd] in H. by simplify_eq.
  - rewrite websocket_leave_inboxes in H. by simplify_eq.
  - destruct (cleanup_tick_eq s now) as (s' & lines & Heq & Hi & _).
    rewrite Heq in H. cbn [snd] in H. rewrite Hi in H.
    destruct (decide _); by simplify_eq.
  - done.
  - rewrite cycle_resume_inboxes in H. by simplify_eq.
Qed.

Lemma run_messages_kept schedule : ∀ s k v v',
  inboxes s !! k = Some v →
  inboxes (run schedule s) !! k = Some v' →
  Forall (λ a, ¬ creates k a ∧ ¬ begins_cycle a) schedule →
  messages v' = messages v.
Proof.
  induction schedule as [|a rest IH]; intros s k v v' Hv Hv' Hall.
  - cbn in Hv'. by simplify_eq.
  - apply Forall_cons in Hall as [[Hcr Hcy] Hrest]. cbn [run foldl] in Hv'.
    destruct (inboxes (exec a s) !! k) as [v1|] eqn:H1.
    + rewrite (IH (exec a s) k v1 v' H1 Hv' Hrest).
      by apply (exec_messages_kept a s k).
    + assert (inboxes (run rest (exec a s)) !! k = None) as Hnone.
      { apply run_absent; [done|]. eapply Forall_impl; [done|]. by intros ? []. }
      unfold run in Hnone. congruence.
Qed.

(** C2, as the code has it.  When a cycle gets as far as a push, lines
    84-101 have run first: in the state in which [send_json] is called the
    new message is already the last one of the selected inbox, and no frame
    had been sent before.  Whatever the other tasks do while the push is
    waited for (short of creating the identifier again; the generator itself
    is in the middle of its cycle), and whatever exception the push then
    raises, the second segment of the cycle leaves the inboxes as it finds
    them: the failed push removes nothing.  If the inbox is still in the
    registry, [check_email_inbox] on it returns its messages, which end with
    the new one; if another task has removed it in the meantime,
    [check_email_inbox] raises the 404 exception. *)
Theorem push_failure_keeps_message rnd s p s1 sending e :
  cycle_begin rnd s = (Ret (Some p), s1) →
  Forall (λ a, ¬ creates (target_email_id p) a ∧ ¬ begins_cycle a) sending →
  ∃ s_mid data,
    select_and_append rnd s =
      (Ret (Some (target_email_id p, inbox_address p, sent p)), s_mid) ∧
    trace s_mid = trace s ++ [new_email_line (inbox_address p)] ∧
    inboxes s_mid !! target_email_id p = Some data ∧
    last (messages data) = Some (sent p) ∧
    s1 = mkState (inboxes s_mid) (active_connections s_mid)
           (trace s_mid ++ [SendJson (connection p) (sent p)]) ∧
    inboxes (cycle_resume p (Some e) (run sending s1)).2
      = inboxes (run sending s1) ∧
    match inboxes (run sending s1) !! target_email_id p with
    | Some data' =>
        messages data' = messages data ∧
        check_email_inbox (target_email_id p)
            (cycle_resume p (Some e) (run sending s1)).2 =
          (Ret (InboxResponse (messages data)),
           (cycle_resume p (Some e) (run sending s1)).2)
    | None =>
        check_email_inbox (target_email_id p)
            (cycle_resume p (Some e) (run sending s1)).2 =
          (Raise not_found_expired,
           (cycle_resume p (Some e) (run sending s1)).2)
    end.
Proof.
  intros Hbegin Hall.
  destruct (message_kept_without_interleaving rnd s p s1 e Hbegin)
    as (s_mid & data & Hsel & Htr & Hd & Hlast & Hs1 & _ & _).
  exists s_mid, data. split_and!; try done.
  - apply cycle_resume_inboxes.
  - assert (inboxes s1 !! target_email_id p = Some data) as Hd1
      by by rewrite Hs1.
    destruct (inboxes (run sending s1) !! target_email_id p)
      as [data'|] eqn:Hd'.
    + assert (messages data' = messages data) as Hm
        by by eapply run_messages_kept.
      split; [done|]. rewrite <- Hm. apply check_email_inbox_live.
      by rewrite cycle_resume_inboxes.
    + apply check_email_inbox_absent. by rewrite cycle_resume_inboxes.
Qed.

Lemma push_failure_keeps_message_witness :
  ∃ p s1 s_mid data,
    let sending := [ARefreshEmail the_id 9;
                    AWsLeave 7%nat the_id WebSocketDisconnect] in
    cycle_begin some_randomness one_inbox_attached = (Ret (Some p), s1) ∧
    select_and_append some_randomness one_inbox_attached =
      (Ret (Some (target_email_id p, inbox_address p, sent p)), s_mid) ∧
    trace s_mid = trace one_inbox_attached ++ [new_email_line (inbox_address p)] ∧
    inboxes s_mid !! target_email_id p = Some data ∧
    last (messages data) = Some (sent p) ∧
    s1 = mkState (inboxes s_mid) (active_connections s_mid)
           (trace s_mid ++ [SendJson (connection p) (sent p)]) ∧
    inboxes (cycle_resume p (Some WebSocketDisconnect) (run sending s1)).2
      = inboxes (run sending s1) ∧
    match inboxes (run sending s1) !! target_email_id p with
    | Some data' =>
        messages data' = messages data ∧
        check_email_inbox (target_email_id p)
            (cycle_resume p (Some WebSocketDisconnect) (run sending s1)).2 =
          (Ret (InboxResponse (messages data)),
           (cycle_resume p (Some WebSocketDisconnect) (run sending s1)).2)
    | None =>
        check_email_inbox (target_email_id p)
            (cycle_resume p (Some WebSocketDisconnect) (run sending s1)).2 =
          (Raise not_found_expired,
           (cycle_resume p (Some WebSocketDisconnect) (run sending s1)).2)
    end.
Proof.
  pose (r := cycle_begin some_randomness one_inbox_attached).
  assert (Hr : cycle_begin some_randomness one_inbox_attached = r) by reflexivity.
  vm_compute in r.
  match eval unfold r in r with
  | (Ret (Some ?p), ?s1) =>
      exists p, s1;
      destruct (push_failure_keeps_message some_randomness
                  one_inbox_attached p s1
                  [ARefreshEmail the_id 9;
                   AWsLeave 7%nat the_id WebSocketDisconnect]
                  WebSocketDisconnect Hr)
        as (s_mid & data & H);
      [ repeat constructor; vm_compute; tauto
      | exists s_mid, data; exact (conj Hr H) ]
  end.
Defined.

(** C2 as stated fails in its last part.  The cycle stores the message in
    the inbox (which then reads back as that one message) and calls
    [send_json] on socket 7.  While the push is waited for, the inbox is
    deleted by a request.  The push fails; the failure removes nothing, but
    [check_email_inbox] on that inbox now raises the 404 exception instead of
    returning the message. *)
Lemma delete_during_push_gives_not_found :
  let p := mkPending the_id "00000000@temp-inbox.com" 7%nat
             (new_email some_randomness "00000000@temp-inbox.com") in
  let s1 := (cycle_begin some_randomness one_inbox_attached).2 in
  let s2 := (cycle_resume p (Some RuntimeError)
               (run [ADeleteEmail the_id None] s1)).2 in
  (cycle_begin some_randomness one_inbox_attached).1 = Ret (Some p) ∧
  (check_email_inbox the_id s1).1 = Ret (InboxResponse [sent p]) ∧
  one_cycle (mkCycle [] some_randomness [ADeleteEmail the_id None]
               (Some RuntimeError)) one_inbox_attached
    = (Raise RuntimeError, s2) ∧
  inboxes s2 = inboxes (run [ADeleteEmail the_id None] s1) ∧
  (check_email_inbox the_id s2).1 = Raise not_found_expired.
Proof. vm_compute. done. Qed.

(** ** C3 *)

(** The loop stops at the first cycle that raises. *)
Lemma simulate_email_reception_raise c rest s e s' :
  one_cycle c s = (Raise e, s') →
  simulate_email_reception (c :: rest) s = (Raise e, s').
Proof.
  intros H. unfold simulate_email_reception. cbn [for_each].
  unfold mbind, M_bind. by rewrite H.
Qed.

Lemma simulate_email_reception_continue c rest s s' :
  one_cycle c s = (Ret tt, s') →
  simulate_email_reception (c :: rest) s = simulate_email_reception rest s'.
Proof.
  intros H. unfold simulate_email_reception. cbn [for_each].
  unfold mbind, M_bind. by rewrite H.
Qed.

(** What the handler of lines 109-111 covers: the push raises
    [WebSocketDisconnect] and the handle is still the registered one.  The
    handle is dropped and the cycle returns. *)
Lemma push_disconnect_is_tolerated c s p s1 ws :
  cycle_begin (c_rnd c) (run (c_sleeping c) s) = (Ret (Some p), s1) →
  c_send_answer c = Some WebSocketDisconnect →
  active_connections (run (c_sending c) s1) !! target_email_id p = Some ws →
  ∃ s', one_cycle c s = (Ret tt, s') ∧
        active_connections s' !! target_email_id p = None.
Proof.
  intros Hb Ha Hc. unfold one_cycle. rewrite Hb, Ha.
  erewrite cycle_resume_disconnect_attached by done.
  eexists. split; [done|]. cbn. by rewrite lookup_delete_eq.
Qed.

(** What it does not cover: any other exception of the push ends the task. *)
Lemma push_error_ends_the_task c rest s p s1 e :
  cycle_begin (c_rnd c) (run (c_sleeping c) s) = (Ret (Some p), s1) →
  c_send_answer c = Some e →
  e ≠ WebSocketDisconnect →
  simulate_email_reception (c :: rest) s = (Raise e, run (c_sending c) s1).
Proof.
  intros Hb Ha He. apply simulate_email_reception_raise.
  unfold one_cycle. rewrite Hb, Ha. by apply cycle_resume_other.
Qed.

(** Nor a handle that another task dropped while the push was waiting: the
    unguarded [del] of line 111 raises [KeyError]. *)
Lemma push_disconnect_after_detach_ends_the_task c rest s p s1 :
  cycle_begin (c_rnd c) (run (c_sleeping c) s) = (Ret (Some p), s1) →
  c_send_answer c = Some WebSocketDisconnect →
  active_connections (run (c_sending c) s1) !! target_email_id p = None →
  simulate_email_reception (c :: rest) s = (Raise KeyError, run (c_sending c) s1).
Proof.
  intros Hb Ha Hc. apply simulate_email_reception_raise.
  unfold one_cycle. rewrite Hb, Ha.
  by apply cycle_resume_disconnect_detached.
Qed.

(** C3.  The property fails on the code.  One inbox with socket 7 subscribed;
    the push of the first cycle raises [RuntimeError], which is what a socket
    that is already closed answers (line 184).  The exception leaves the loop:
    the task ends with it, the second cycle never runs (the inbox holds one
    message, not two), and the stale handle is still registered. *)
Theorem push_runtime_error_ends_generator :
  let failing := mkCycle [] some_randomness [] (Some RuntimeError) in
  let next := mkCycle [] some_randomness [] None in
  let out := simulate_email_reception [failing; next] one_inbox_attached in
  out.1 = Raise RuntimeError ∧
  active_connections out.2 !! the_id = Some 7%nat ∧
  (length ∘ messages) <$> inboxes out.2 !! the_id = Some 1%nat.
Proof. vm_compute. done. Qed.

(** The same end by the other road: the push raises [WebSocketDisconnect],
    but the endpoint of socket 7 has run its [finally] block in the
    meantime. *)
Example push_disconnect_race_ends_generator :
  let failing :=
    mkCycle [] some_randomness [AWsLeave 7%nat the_id WebSocketDisconnect]
      (Some WebSocketDisconnect) in
  let next := mkCycle [] some_randomness [] None in
  (simulate_email_reception [failing; next] one_inbox_attached).1
  = Raise KeyError.
Proof. vm_compute. done. Qed.

(** ** C1 *)

(** The table holds one handle per identifier, and registering replaces
    what was there. *)
Lemma websocket_register_supersedes s websocket email_id :
  active_connections (websocket_register websocket email_id s).2 !! email_id
  = Some websocket.
Proof. rewrite websocket_register_eq. cbn. by rewrite lookup_insert_eq. Qed.

(** The [finally] block of any socket empties the entry of the identifier,
    its own or not, and does not raise. *)
Lemma websocket_finally_drops s websocket email_id :
  (websocket_finally websocket email_id s).1 = Ret tt ∧
  active_connections (websocket_finally websocket email_id s).2 !! email_id
  = None.
Proof.
  rewrite websocket_finally_eq. split; [done|]. cbn. by rewrite lookup_delete_eq.
Qed.

(** C1.  The property fails on the code in its last part.  Socket 7 subscribes
    to the inbox.  While it waits in [receive_text], socket 8 subscribes to
    the same identifier and replaces it: the table holds one handle, the new
    one.  When socket 7 then disconnects, its endpoint returns without
    raising, but its [finally] block (lines 233-234) has deleted the entry of
    the identifier, which held socket 8: no handle is left although socket 8
    is still connected. *)
Theorem superseded_detach_drops_canonical :
  let second := [AWsConnect 8%nat the_id; AWsRegister 8%nat the_id] in
  let out :=
    websocket_endpoint 7%nat the_id
      (mkSession [] None second WebSocketDisconnect) one_inbox in
  active_connections one_inbox_attached !! the_id = Some 7%nat ∧
  active_connections (run second one_inbox_attached) !! the_id = Some 8%nat ∧
  out.1 = Ret tt ∧
  out.2 = (websocket_leave 7%nat the_id WebSocketDisconnect
             (run second one_inbox_attached)).2 ∧
  active_connections out.2 !! the_id = None.
Proof. vm_compute. done. Qed.

(** ** C4 *)

(** C4, as the code has it.  A tick of the reaper returns without raising.
    Every inbox whose [expires_at] is strictly before [now] is removed from
    the registry, and the handle registered under its identifier, if any, is
    removed from [active_connections].  The other inboxes and handles are
    left as they are.  The tick only prints: it sends no close to any
    socket. *)
Theorem cleanup_tick_removes_expired s now :
  ∃ s' lines,
    cleanup_tick now s = (Ret tt, s') ∧
    (∀ k, expired (inboxes s) now k →
       inboxes s' !! k = None ∧ active_connections s' !! k = None) ∧
    (∀ k, ¬ expired (inboxes s) now k →
       inboxes s' !! k = inboxes s !! k ∧
       active_connections s' !! k = active_connections s !! k) ∧
    trace s' = trace s ++ (PrintLine <$> lines).
Proof.
  destruct (cleanup_tick_eq s now) as (s' & lines & Hrun & Hi & Hc & Ht).
  exists s', lines. split_and!; [done| | |done].
  - intros k He. rewrite Hi, Hc. by destruct (decide _).
  - intros k He. rewrite Hi, Hc. by destruct (decide _).
Qed.

(** C4 as stated fails: the inbox is due, socket 7 is subscribed to it, the
    tick removes both entries, and all it does to the outside world is to
    print one line.  Socket 7 is never told to close. *)
Lemma reaper_sends_no_close :
  let now := TTL + 1 in
  let out := cleanup_tick now one_inbox_attached in
  expired (inboxes one_inbox_attached) now the_id ∧
  active_connections one_inbox_attached !! the_id = Some 7%nat ∧
  out.1 = Ret tt ∧
  inboxes out.2 !! the_id = None ∧
  active_connections out.2 !! the_id = None ∧
  trace out.2 =
    trace one_inbox_attached ++
    [PrintLine "INFO: Deleting expired inbox for 00000000@temp-inbox.com"].
Proof.
  split.
  - exists (mkInbox "00000000@temp-inbox.com" [] TTL).
    split; vm_compute; reflexivity.
  - vm_compute. done.
Qed.

(** ** C5 *)



(** ** C6 *)

Lemma due_by_initial T : due_by T (inboxes initial).
Proof. intros k v H. cbn in H. by rewrite lookup_empty in H. Qed.

(** C6, as the code has it.  In a state the program has reached, with [T]
    no earlier than any clock reading so far, [refresh_email_timer] on a
    live inbox returns and sets [expires_at] to the reading [now] of the call
    plus one hour, leaving the address and the messages.  The new value is
    strictly greater than the old one when [now] is strictly later than [T],
    and not smaller when [now] is not earlier than [T]. *)
Theorem refresh_sets_deadline schedule T email_id now data :
  clocks_upto T schedule →
  inboxes (run schedule initial) !! email_id = Some data →
  ∃ r s',
    refresh_email_timer email_id now (run schedule initial) = (Ret r, s') ∧
    inboxes s' !! email_id =
      Some (mkInbox (email_address data) (messages data) (now + TTL)) ∧
    (T < now → expires_at data < now + TTL) ∧
    (T ≤ now → expires_at data ≤ now + TTL).
Proof.
  intros Hclocks Hd.
  rewrite (refresh_email_timer_live _ _ _ _ Hd). do 2 eexists.
  split; [done|]. cbn [inboxes]. rewrite lookup_insert_eq. split; [done|].
  pose proof (run_due_by T schedule initial Hclocks (due_by_initial T)
                email_id data Hd).
  lia.
Qed.

Lemma refresh_sets_deadline_witness :
  ∃ r s',
    refresh_email_timer the_id 9 (run [ANewEmail 1%N 0%N [] 0] initial)
      = (Ret r, s') ∧
    inboxes s' !! the_id =
      Some (mkInbox "00000000@temp-inbox.com" [] (9 + TTL)) ∧
    (0 < 9 → TTL < 9 + TTL) ∧
    (0 ≤ 9 → TTL ≤ 9 + TTL).
Proof.
  apply (refresh_sets_deadline [ANewEmail 1%N 0%N [] 0] 0 the_id 9
           (mkInbox "00000000@temp-inbox.com" [] TTL)).
  - repeat constructor. cbn. intros t [= <-]. lia.
  - vm_compute. reflexivity.
Defined.

(** C6 as stated fails: an inbox created when the clock reads 5 and
    refreshed while it still reads 5 keeps its deadline, so that the new
    value is equal to the old one, not greater; and if the clock has been set
    back to 3 in between, the new value is smaller. *)
Lemma refresh_same_reading_same_deadline :
  let s := run [ANewEmail 1%N 0%N [] 5] initial in
  expires_at <$> inboxes s !! the_id = Some (5 + TTL) ∧
  (∃ r, (refresh_email_timer the_id 5 s).1 = Ret r) ∧
  expires_at <$> inboxes (refresh_email_timer the_id 5 s).2 !! the_id
    = Some (5 + TTL) ∧
  expires_at <$> inboxes (refresh_email_timer the_id 3 s).2 !! the_id
    = Some (3 + TTL).
Proof. vm_compute. eauto 10. Qed.

(** ** C7 *)

(** Both ways of removing an inbox leave its identifier out of the
    registry. *)
Lemma deleted_inbox_is_gone s email_id close_answer :
  inboxes (delete_email email_id close_answer s).2 !! email_id = None.
Proof. by rewrite delete_email_inboxes, lookup_delete_eq. Qed.

Lemma expired_inbox_is_reaped s now email_id :
  expired (inboxes s) now email_id →
  inboxes (cleanup_tick now s).2 !! email_id = None.
Proof.
  intros He. destruct (cleanup_tick_eq s now) as (s' & lines & -> & Hi & _).
  cbn. rewrite Hi. by destruct (decide _).
Qed.

(** C7.  Once an identifier is out of the registry, and whatever the tasks
    do afterwards short of creating it again, [check_email_inbox],
    [refresh_email_timer] and [delete_email] on it raise the 404 exception
    and change nothing, and a socket that asks for it is turned away.  No
    append targets it either: the only append of the program is the one of
    the generator, which takes its key from the registry in the same
    segment, so that no cycle selects that identifier, and every cycle leaves
    it out of the registry. *)
Theorem removed_inbox_stays_not_found s schedule email_id :
  inboxes s !! email_id = None →
  Forall (λ a, ¬ creates email_id a) schedule →
  let s' := run schedule s in
  check_email_inbox email_id s' = (Raise not_found_expired, s') ∧
  (∀ now, refresh_email_timer email_id now s' = (Raise not_found_expired, s')) ∧
  (∀ close_answer,
     delete_email email_id close_answer s' = (Raise not_found_deleted, s')) ∧
  (∀ websocket, (websocket_connect websocket email_id s').1 = Ret false) ∧
  (∀ rnd,
     inboxes (cycle_begin rnd s').2 !! email_id = None ∧
     ∀ target addr m s1,
       select_and_append rnd s' = (Ret (Some (target, addr, m)), s1) →
       target ≠ email_id).
Proof.
  intros Hk Hall s'.
  assert (inboxes s' !! email_id = None) as Hk' by by apply run_absent.
  split_and!.
  - by apply check_email_inbox_absent.
  - intros now. by apply refresh_email_timer_absent.
  - intros close_answer. by apply delete_email_absent.
  - intros websocket. by rewrite websocket_connect_absent.
  - intros rnd. split.
    + apply (exec_absent (ACycleBegin rnd)); [done|by intros []].
    + intros target addr m s1 Hrun ->.
      destruct (decide (inboxes s' = ∅)) as [He|Hne].
      * by rewrite (select_and_append_empty _ _ He) in Hrun.
      * destruct (select_and_append_nonempty rnd s' Hne)
          as (target & data & _ & Hd & Hrun').
        rewrite Hrun' in Hrun. injection Hrun as <- _ _ _. congruence.
Qed.

Lemma removed_inbox_stays_not_found_witness :
  let s := run [ADeleteEmail the_id None] one_inbox in
  let s' := run [ANewEmail 2%N 1%N [] 7; ACycleBegin some_randomness] s in
  check_email_inbox the_id s' = (Raise not_found_expired, s') ∧
  (∀ now, refresh_email_timer the_id now s' = (Raise not_found_expired, s')) ∧
  (∀ close_answer,
     delete_email the_id close_answer s' = (Raise not_found_deleted, s')) ∧
  (∀ websocket, (websocket_connect websocket the_id s').1 = Ret false) ∧
  (∀ rnd,
     inboxes (cycle_begin rnd s').2 !! the_id = None ∧
     ∀ target addr m s1,
       select_and_append rnd s' = (Ret (Some (target, addr, m)), s1) →
       target ≠ the_id).
Proof.
  apply (removed_inbox_stays_not_found
           (run [ADeleteEmail the_id None] one_inbox)
           [ANewEmail 2%N 1%N [] 7; ACycleBegin some_randomness] the_id).
  - vm_compute. reflexivity.
  - repeat constructor; vm_compute; [discriminate|tauto].
Defined.

(** ** C8 *)

(** In every state the program reaches, no two inboxes share an address. *)
Lemma reachable_addresses_distinct schedule :
  addresses_distinct (inboxes (run schedule initial)).
Proof. apply run_addresses_distinct, addresses_distinct_initial. Qed.

(** What a call of [generate_new_email] that returns has done. *)
Lemma returned_create_is_unique schedule id_draw first draws now r s' :
  generate_new_email id_draw first draws now (run schedule initial)
    = Some (r, s') →
  ∃ addr,
    r = Ret (NewEmailResponse (uuid_str id_draw) addr) ∧
    inboxes s' !! uuid_str id_draw = Some (mkInbox addr [] (now + TTL)) ∧
    (∀ j y, j ≠ uuid_str id_draw → inboxes s' !! j = Some y →
            email_address y ≠ addr) ∧
    addresses_distinct (inboxes s') ∧
    ∀ later, addresses_distinct (inboxes (run later s')).
Proof.
  intros Hrun.
  assert (s' = run (schedule ++ [ANewEmail id_draw first draws now]) initial)
    as Hs'.
  { unfold run. rewrite foldl_app. cbn [foldl exec]. fold (run schedule initial).
    by rewrite Hrun. }
  assert (addresses_distinct (inboxes s')) as Hdist.
  { rewrite Hs'. apply reachable_addresses_distinct. }
  destruct (regenerate (inboxes (run schedule initial)) (address_of first) draws)
    as [addr|] eqn:Hr.
  - rewrite (generate_new_email_eq _ _ _ _ _ _ Hr) in Hrun.
    injection Hrun as <- Hst. exists addr.
    assert (inboxes s' !! uuid_str id_draw = Some (mkInbox addr [] (now + TTL)))
      as Hnew.
    { rewrite <- Hst. cbn [inboxes]. by rewrite lookup_insert_eq. }
    split_and!; try done.
    + intros j y Hne Hj Heq. apply Hne. by eapply Hdist.
    + intros later. by apply run_addresses_distinct.
  - unfold generate_new_email in Hrun. by rewrite Hr in Hrun.
Qed.

(** C8, as the code has it.  In any state the program has reached, if one
    of the values [uuid.uuid4()] gives to the loop of lines 137-139, say the
    [n]-th, has a prefix whose address no inbox has, then
    [generate_new_email] returns, with these draws and with any longer run of
    draws.  It stores, under the identifier it returns, an inbox with the
    address it returns, no message, and [expires_at] one hour after the clock
    reading of the call.  No other inbox of the registry has that address,
    the addresses of the inboxes of the registry are pairwise different, and
    they stay so whatever the tasks do next. *)
Theorem create_inserts_unique_address schedule id_draw first rng now n :
  address_taken (inboxes (run schedule initial)) (address_of (rng n)) = false →
  ∃ addr,
    ∀ m, (S n ≤ m)%nat →
      ∃ s',
        generate_new_email id_draw first (draws_of rng m) now
            (run schedule initial)
          = Some (Ret (NewEmailResponse (uuid_str id_draw) addr), s') ∧
        inboxes s' !! uuid_str id_draw = Some (mkInbox addr [] (now + TTL)) ∧
        (∀ j y, j ≠ uuid_str id_draw → inboxes s' !! j = Some y →
                email_address y ≠ addr) ∧
        addresses_distinct (inboxes s') ∧
        ∀ later, addresses_distinct (inboxes (run later s')).
Proof.
  intros Hfree.
  destruct (regenerate_hit (inboxes (run schedule initial)) (rng n)
              (draws_of rng n) (address_of first) Hfree) as [addr Haddr].
  rewrite <- draws_of_S in Haddr.
  exists addr. intros m Hle.
  destruct (draws_of_le rng (S n) m Hle) as [more Hmore].
  assert (regenerate (inboxes (run schedule initial)) (address_of first)
            (draws_of rng m) = Some addr) as Hm.
  { rewrite Hmore. by apply regenerate_more. }
  pose proof (generate_new_email_eq id_draw first (draws_of rng m) now
                (run schedule initial) addr Hm) as Hrun.
  eexists. split; [exact Hrun|].
  destruct (returned_create_is_unique _ _ _ _ _ _ _ Hrun)
    as (addr' & [= <-] & Hnew & Hother & Hdist & Hlater).
  done.
Qed.

Lemma create_inserts_unique_address_witness :
  let rng := λ k : nat, if decide (k = 2%nat) then (3 * 2 ^ 96)%N else 0%N in
  let s := run [ANewEmail 1%N 0%N [] 0] initial in
  ∃ addr,
    ∀ m, (3 ≤ m)%nat →
      ∃ s',
        generate_new_email 2%N 0%N (draws_of rng m) 4 s
          = Some (Ret (NewEmailResponse (uuid_str 2%N) addr), s') ∧
        inboxes s' !! uuid_str 2%N = Some (mkInbox addr [] (4 + TTL)) ∧
        (∀ j y, j ≠ uuid_str 2%N → inboxes s' !! j = Some y →
                email_address y ≠ addr) ∧
        addresses_distinct (inboxes s') ∧
        ∀ later, addresses_distinct (inboxes (run later s')).
Proof.
  apply (create_inserts_unique_address [ANewEmail 1%N 0%N [] 0] 2%N 0%N
           (λ k : nat, if decide (k = 2%nat) then (3 * 2 ^ 96)%N else 0%N)
           4 2).
  vm_compute. reflexivity.
Defined.

(** C8 as stated fails for a call whose loop does not end.  The registry
    holds one inbox and the address of prefix [00000001] is free, but every
    draw gives the prefix of that inbox again: after any number of
    regenerations the call has not returned, and it has stored nothing under
    its identifier. *)
Lemma colliding_create_inserts_nothing :
  inboxes one_inbox !! uuid_str 2%N = None ∧
  address_taken (inboxes one_inbox) (address_of (2 ^ 96)%N) = false ∧
  ∀ n,
    generate_new_email 2%N 0%N (draws_of (λ _, 0%N) n) 4 one_inbox = None ∧
    inboxes (exec (ANewEmail 2%N 0%N (draws_of (λ _, 0%N) n) 4) one_inbox)
      !! uuid_str 2%N = None.
Proof.
  split_and!; [vm_compute; reflexivity..|].
  intros n.
  assert (generate_new_email 2%N 0%N (draws_of (λ _, 0%N) n) 4 one_inbox
          = None) as Hnone.
  { unfold generate_new_email.
    rewrite regenerate_stuck; [done|]. vm_compute. reflexivity. }
  split; [done|]. cbn [exec]. rewrite Hnone. vm_compute. reflexivity.
Qed.

(** ** C9 *)

(** C9, as the code has it.  If one of the values [uuid.uuid4()] gives to
    the loop, say the [n]-th, has a prefix whose address no inbox of the
    registry has, the loop of lines 137-139 ends after at most [n + 1]
    regenerations: with these draws, and with any longer run of draws,
    [generate_new_email] returns, it returns a response and no exception,
    and the address of the response is one no inbox had. *)
Theorem create_ends_on_first_free_draw s id_draw first rng now n :
  address_taken (inboxes s) (address_of (rng n)) = false →
  ∃ addr,
    address_taken (inboxes s) addr = false ∧
    ∀ m, (S n ≤ m)%nat →
      ∃ s',
        generate_new_email id_draw first (draws_of rng m) now s =
          Some (Ret (NewEmailResponse (uuid_str id_draw) addr), s').
Proof.
  intros Hfree.
  destruct (regenerate_hit (inboxes s) (rng n) (draws_of rng n)
              (address_of first) Hfree) as [addr Haddr].
  rewrite <- draws_of_S in Haddr.
  exists addr. split; [by eapply regenerate_fresh|].
  intros m Hle. destruct (draws_of_le rng (S n) m Hle) as [more ->].
  eexists. apply generate_new_email_eq. by apply regenerate_more.
Qed.

Lemma create_ends_on_first_free_draw_witness :
  ∃ addr,
    address_taken (inboxes one_inbox) addr = false ∧
    ∀ m, (3 ≤ m)%nat →
      ∃ s',
        generate_new_email 2%N 0%N
          (draws_of (λ k, if decide (k = 2%nat)
                          then (3 * 2 ^ 96)%N else 0%N) m)
          4 one_inbox =
          Some (Ret (NewEmailResponse (uuid_str 2%N) addr), s').
Proof.
  apply (create_ends_on_first_free_draw one_inbox 2%N 0%N
           (λ k, if decide (k = 2%nat)
                 then (3 * 2 ^ 96)%N else 0%N) 4 2).
  vm_compute. reflexivity.
Defined.

(** C9 as stated fails: the registry holds one inbox, so that all addresses
    but one are free (the one of prefix [00000001] for instance), yet if
    every draw gives the prefix of that inbox again, the loop is still
    running after any number of regenerations: [generate_new_email] does not
    return. *)
Lemma create_loops_on_repeated_draw :
  address_taken (inboxes one_inbox) "00000001@temp-inbox.com" = false ∧
  address_of (2 ^ 96)%N = "00000001@temp-inbox.com" ∧
  ∀ n, generate_new_email 2%N 0%N (draws_of (λ _, 0%N) n) 4 one_inbox = None.
Proof.
  split_and!; [vm_compute; reflexivity..|].
  intros n. unfold generate_new_email.
  rewrite regenerate_stuck; [done|]. vm_compute. reflexivity.
Qed.

(** * Further properties of the code *)

(** ** What one segment does to the handles *)

Lemma delete_email_connections email_id close_answer s :
  active_connections (delete_email email_id close_answer s).2
  = delete email_id (active_connections s) ∨
  (inboxes s !! email_id = None ∧
   (delete_email email_id close_answer s).2 = s).
Proof.
  destruct (inboxes s !! email_id) as [data|] eqn:H.
  - left. destruct (active_connections s !! email_id) as [ws|] eqn:Hc.
    + rewrite (delete_email_attached _ _ _ _ _ H Hc).
      by destruct close_answer as [[]|].
    + rewrite (delete_email_unattached _ _ _ _ H Hc). cbn.
      by rewrite delete_id.
  - right. by rewrite (delete_email_absent _ _ _ H).
Qed.

Lemma cycle_begin_connections rnd s :
  active_connections (cycle_begin rnd s).2 = active_connections s.
Proof.
  rewrite cycle_begin_split.
  destruct (decide (inboxes s = ∅)) as [He|Hne].
  - by rewrite (select_and_append_empty _ _ He).
  - destruct (select_and_append_nonempty rnd s Hne)
      as (target & data & _ & Hk & ->).
    destruct (active_connections s !! target) as [ws|] eqn:Hc.
    + by erewrite start_push_attached.
    + by erewrite start_push_unattached.
Qed.

Lemma cycle_begin_returns rnd s :
  ∃ pending s1, cycle_begin rnd s = (Ret pending, s1).
Proof.
  rewrite cycle_begin_split.
  destruct (decide (inboxes s = ∅)) as [He|Hne].
  - rewrite (select_and_append_empty _ _ He). eauto.
  - destruct (select_and_append_nonempty rnd s Hne)
      as (target & data & _ & Hk & ->).
    destruct (active_connections s !! target) as [ws|] eqn:Hc.
    + erewrite start_push_attached by done. eauto.
    + erewrite start_push_unattached by done. eauto.
Qed.

Lemma cycle_resume_connections p send_answer s k ws :
  active_connections (cycle_resume p send_answer s).2 !! k = Some ws →
  active_connections s !! k = Some ws.
Proof.
  unfold cycle_resume. unfold_m.
  destruct send_answer as [[]|]; try done.
  destruct (active_connections s !! target_email_id p); cbn; [|done].
  by intros [_ H]%lookup_delete_Some.
Qed.

(** A handle found after a segment was there before it, unless the segment
    is the registration of that very handle. *)
Lemma exec_connections a s k ws :
  active_connections (exec a s) !! k = Some ws →
  active_connections s !! k = Some ws ∨ a = AWsRegister ws k.
Proof.
  destruct a as [id_draw first draws now|email_id|email_id close_answer
                |email_id now|w email_id|w email_id|w email_id e
                |now|rnd|p send_answer]; cbn [exec]; intros H.
  - left. unfold generate_new_email in H.
    by destruct (regenerate _ _ _).
  - left. by rewrite check_email_inbox_state in H.
  - left. destruct (delete_email_connections email_id close_answer s)
      as [Heq|[_ Heq]]; rewrite Heq in H; [|done].
    by apply lookup_delete_Some in H as [_ H].
  - left. destruct (inboxes s !! email_id) as [data|] eqn:Hd.
    + by rewrite (refresh_email_timer_live _ _ _ _ Hd) in H.
    + by rewrite (refresh_email_timer_absent _ _ _ Hd) in H.
  - left. destruct (inboxes s !! email_id) as [data|] eqn:Hd.
    + by rewrite (websocket_connect_live _ _ _ _ Hd) in H.
    + by rewrite (websocket_connect_absent _ _ _ Hd) in H.
  - rewrite websocket_register_eq in H. cbn [inboxes active_connections snd] in H.
    destruct (decide (email_id = k)) as [->|Hne].
    + rewrite lookup_insert_eq in H. injection H as ->. by right.
    + rewrite lookup_insert_ne in H by done. by left.
  - left. rewrite websocket_leave_connections in H.
    by apply lookup_delete_Some in H as [_ H].
  - left. destruct (cleanup_tick_eq s now) as (s' & lines & Heq & _ & Hc & _).
    rewrite Heq in H. cbn [inboxes active_connections snd] in H. rewrite Hc in H. by destruct (decide _).
  - left. by rewrite cycle_begin_connections in H.
  - left. by eapply cycle_resume_connections.
Qed.

(** A segment that takes an inbox out of the registry takes the handle
    registered under its identifier out of [active_connections]. *)
Lemma exec_removed_together a s k :
  is_Some (inboxes s !! k) → inboxes (exec a s) !! k = None →
  active_connections (exec a s) !! k = None.
Proof.
  intros [v Hv].
  destruct a as [id_draw first draws now|email_id|email_id close_answer
                |email_id now|w email_id|w email_id|w email_id e
                |now|rnd|p send_answer]; cbn [exec]; intros H.
  - exfalso.
    destruct (regenerate (inboxes s) (address_of first) draws)
      as [addr|] eqn:Hr.
    + rewrite (generate_new_email_eq _ _ _ _ _ _ Hr) in H. cbn [inboxes] in H.
      destruct (decide (uuid_str id_draw = k)) as [<-|Hne].
      * by rewrite lookup_insert_eq in H.
      * rewrite lookup_insert_ne in H by done. congruence.
    + unfold generate_new_email in H. rewrite Hr in H. congruence.
  - rewrite check_email_inbox_state in H. congruence.
  - rewrite delete_email_inboxes in H.
    apply lookup_delete_None in H as [->|H]; [|congruence].
    destruct (delete_email_connections k close_answer s) as [->|[Hn _]];
      [apply lookup_delete_eq|congruence].
  - exfalso. destruct (inboxes s !! email_id) as [data|] eqn:Hd.
    + rewrite (refresh_email_timer_live _ _ _ _ Hd) in H.
      cbn [inboxes snd] in H.
      destruct (decide (email_id = k)) as [<-|Hne].
      * by rewrite lookup_insert_eq in H.
      * rewrite lookup_insert_ne in H by done. congruence.
    + rewrite (refresh_email_timer_absent _ _ _ Hd) in H. cbn [snd] in H.
      congruence.
  - exfalso. destruct (inboxes s !! email_id) as [data|] eqn:Hd.
    + rewrite (websocket_connect_live _ _ _ _ Hd) in H.
      cbn [inboxes snd] in H. congruence.
    + rewrite (websocket_connect_absent _ _ _ Hd) in H.
      cbn [inboxes snd] in H. congruence.
  - exfalso. rewrite websocket_register_eq in H. cbn [inboxes snd] in H.
    congruence.
  - exfalso. rewrite websocket_leave_inboxes in H. congruence.
  - destruct (cleanup_tick_eq s now) as (s' & lines & Heq & Hi & Hc & _).
    rewrite Heq in *. cbn [inboxes active_connections snd] in *. rewrite Hi in H. rewrite Hc.
    destruct (decide _); [done|congruence].
  - exfalso.
    destruct (cycle_begin_inboxes rnd s) as [Heq|(target & data & Hd & Heq)];
      rewrite Heq in H; [congruence|].
    destruct (decide (target = k)) as [<-|Hne].
    + by rewrite lookup_insert_eq in H.
    + rewrite lookup_insert_ne in H by done. congruence.
  - exfalso. rewrite cycle_resume_inboxes in H. congruence.
Qed.

Lemma register_keeps_inboxes websocket email_id s :
  inboxes (exec (AWsRegister websocket email_id) s) = inboxes s.
Proof. done. Qed.

Lemma exec_handles_live a s :
  handles_live s →
  match a with
  | AWsRegister _ email_id => is_Some (inboxes s !! email_id)
  | _ => True
  end →
  handles_live (exec a s).
Proof.
  intros Hinv Hreg k ws Hk.
  destruct (inboxes (exec a s) !! k) as [v|] eqn:Hi; [eauto|exfalso].
  destruct (exec_connections a s k ws Hk) as [Hold| ->].
  - apply Hinv in Hold as Hlive.
    pose proof (exec_removed_together a s k Hlive Hi). congruence.
  - rewrite register_keeps_inboxes in Hi. destruct Hreg. congruence.
Qed.

(** X1.  Every handle of [active_connections] stands under the identifier of
    an inbox of the registry, in every state the program reaches, as long as
    no registration (line 220) comes after the inbox found at line 215 has
    been removed during [await websocket.accept()]: [delete_email] and the
    reaper never leave a handle behind, and nothing else adds one. *)
Theorem handles_stay_live schedule :
  registers_on_live schedule initial →
  handles_live (run schedule initial).
Proof.
  assert (∀ s, handles_live s → registers_on_live schedule s →
               handles_live (run schedule s)) as Hgen.
  { induction schedule as [|a rest IH]; intros s Hinv Hreg; [done|].
    destruct Hreg as [Ha Hrest]. cbn [run foldl].
    apply IH; [|done]. by apply exec_handles_live. }
  intros Hreg. apply Hgen; [|done].
  intros k ws H. cbn in H. by rewrite lookup_empty in H.
Qed.

Lemma handles_stay_live_witness :
  handles_live
    (run [ANewEmail 1%N 0%N [] 0; AWsConnect 7%nat the_id;
          AWsRegister 7%nat the_id; ACycleBegin some_randomness;
          ACleanupTick (TTL + 1)] initial).
Proof.
  apply (handles_stay_live
           [ANewEmail 1%N 0%N [] 0; AWsConnect 7%nat the_id;
            AWsRegister 7%nat the_id; ACycleBegin some_randomness;
            ACleanupTick (TTL + 1)]).
  vm_compute. repeat split. by exists (mkInbox "00000000@temp-inbox.com" [] TTL).
Defined.

(** The precondition is needed: the inbox is deleted while socket 7 waits
    for [accept], and line 220 registers the socket all the same. *)
Example register_after_delete :
  let s := run [AWsConnect 7%nat the_id; ADeleteEmail the_id None;
                AWsRegister 7%nat the_id] one_inbox in
  inboxes s !! the_id = None ∧ active_connections s !! the_id = Some 7%nat.
Proof. vm_compute. done. Qed.

(** ** The WebSocket endpoint as a whole *)

Lemma websocket_leave_result s websocket email_id e :
  (websocket_leave websocket email_id e s).1 =
    if decide (e = WebSocketDisconnect) then Ret tt else Raise e.
Proof.
  unfold websocket_leave, mbind, M_bind, emit, raise.
  destruct e; by rewrite websocket_finally_eq.
Qed.

(** X2.  A socket that asks for an identifier that is not in the registry
    is turned away (lines 215-217): it is closed with code 1008, it is
    neither accepted nor registered, both dictionaries stay as they are, and
    the endpoint returns at once, whatever else is going on. *)
Theorem websocket_endpoint_rejects_unknown websocket email_id ses s :
  inboxes s !! email_id = None →
  websocket_endpoint websocket email_id ses s =
    (Ret tt,
     mkState (inboxes s) (active_connections s)
       (trace s ++ [Close websocket 1008])).
Proof.
  intros H. unfold websocket_endpoint.
  by rewrite (websocket_connect_absent _ _ _ H).
Qed.

Lemma websocket_endpoint_rejects_unknown_witness :
  websocket_endpoint 7%nat the_id
    (mkSession [ANewEmail 1%N 0%N [] 0] None [] WebSocketDisconnect) initial =
    (Ret tt,
     mkState (inboxes initial) (active_connections initial)
       (trace initial ++ [Close 7%nat 1008])).
Proof.
  apply (websocket_endpoint_rejects_unknown 7%nat the_id
           (mkSession [ANewEmail 1%N 0%N [] 0] None [] WebSocketDisconnect)
           initial).
  vm_compute. reflexivity.
Defined.

(** X3.  When an endpoint that was accepted comes to its end, no handle is
    registered under its identifier any more, whatever the other tasks did in
    the meantime; it returns normally when [receive_text] raised
    [WebSocketDisconnect] and lets any other exception through, after the
    [finally] block. *)
Theorem websocket_endpoint_leaves_no_handle websocket email_id ses s data :
  inboxes s !! email_id = Some data →
  ws_accept_answer ses = None →
  active_connections (websocket_endpoint websocket email_id ses s).2
    !! email_id = None ∧
  (websocket_endpoint websocket email_id ses s).1 =
    if decide (ws_receive_exn ses = WebSocketDisconnect) then Ret tt
    else Raise (ws_receive_exn ses).
Proof.
  intros H Hacc. unfold websocket_endpoint.
  rewrite (websocket_connect_live _ _ _ _ H), Hacc, websocket_register_eq.
  split.
  - rewrite websocket_leave_connections. apply lookup_delete_eq.
  - apply websocket_leave_result.
Qed.

Lemma websocket_endpoint_leaves_no_handle_witness :
  active_connections
    (websocket_endpoint 7%nat the_id
       (mkSession [] None [ACycleBegin some_randomness] RuntimeError)
       one_inbox).2 !! the_id = None ∧
  (websocket_endpoint 7%nat the_id
     (mkSession [] None [ACycleBegin some_randomness] RuntimeError)
     one_inbox).1 =
    if decide (RuntimeError = WebSocketDisconnect) then Ret tt
    else Raise RuntimeError.
Proof.
  apply (websocket_endpoint_leaves_no_handle 7%nat the_id
           (mkSession [] None [ACycleBegin some_randomness] RuntimeError)
           one_inbox (mkInbox "00000000@temp-inbox.com" [] TTL)).
  - vm_compute. reflexivity.
  - reflexivity.
Defined.

(** ** Effects on the outside world *)

(** X4.  Every effect of a segment on the outside world is accounted for.
    A socket is accepted only by the endpoint that found its inbox
    (line 219).  A socket is closed in two places only: with code 1008 by the
    endpoint that did not find its inbox (line 216), and with code 1000 by
    [delete_email] on the handle registered under the deleted identifier
    (line 183); the reaper and the generator close nothing.  A message is
    sent only by the generator (line 107), only to the handle registered
    under the identifier it selected, and only after it has been stored as
    the last message of that inbox. *)
Theorem effects_accounted_for a s :
  ∃ new,
    trace (exec a s) = trace s ++ new ∧ Forall (accounted_for a s) new.
Proof.
  destruct a as [id_draw first draws now|email_id|email_id close_answer
                |email_id now|w email_id|w email_id|w email_id e
                |now|rnd|p send_answer].
  - cbn [exec]. unfold generate_new_email.
    destruct (regenerate _ _ _) as [addr|].
    + eexists [_]. split; [done|]. by repeat constructor.
    + exists []. by rewrite app_nil_r.
  - cbn [exec]. rewrite check_email_inbox_state.
    exists []. by rewrite app_nil_r.
  - cbn [exec]. destruct (inboxes s !! email_id) as [data|] eqn:Hd.
    + destruct (active_connections s !! email_id) as [ws|] eqn:Hc.
      * rewrite (delete_email_attached _ _ _ _ _ Hd Hc).
        assert (accounted_for (ADeleteEmail email_id close_answer) s
                  (Close ws 1000)) as Hclose.
        { right. exists email_id, close_answer. by rewrite Hd. }
        destruct close_answer as [[]|];
          (eexists; split; [reflexivity|]);
          repeat (apply Forall_cons; split; [first [exact Hclose|exact I]|]);
          by apply Forall_nil.
      * rewrite (delete_email_unattached _ _ _ _ Hd Hc).
        eexists [_]. split; [done|]. by repeat constructor.
    + rewrite (delete_email_absent _ _ _ Hd). exists []. by rewrite app_nil_r.
  - cbn [exec]. destruct (inboxes s !! email_id) as [data|] eqn:Hd.
    + rewrite (refresh_email_timer_live _ _ _ _ Hd).
      eexists [_]. split; [done|]. by repeat constructor.
    + rewrite (refresh_email_timer_absent _ _ _ Hd).
      exists []. by rewrite app_nil_r.
  - cbn [exec]. destruct (inboxes s !! email_id) as [data|] eqn:Hd.
    + rewrite (websocket_connect_live _ _ _ _ Hd).
      eexists [_]. split; [done|]. constructor; [|done].
      exists email_id. by rewrite Hd.
    + rewrite (websocket_connect_absent _ _ _ Hd).
      eexists [_]. split; [done|]. constructor; [|done].
      left. by exists email_id.
  - eexists [_]. split; [done|]. by repeat constructor.
  - cbn [exec]. unfold websocket_leave, mbind, M_bind, emit, raise.
    destruct e; rewrite websocket_finally_eq; cbn [snd trace];
      first [by exists []; rewrite app_nil_r
            |eexists [_]; split; [done|]; by repeat constructor].
  - cbn [exec].
    destruct (cleanup_tick_eq s now) as (s' & lines & Heq & _ & _ & Ht).
    rewrite Heq. cbn [snd]. rewrite Ht.
    eexists. split; [done|]. apply Forall_fmap. by apply Forall_true.
  - assert (exec (ACycleBegin rnd) s = (cycle_begin rnd s).2) as Hex by done.
    rewrite cycle_begin_split in Hex.
    destruct (decide (inboxes s = ∅)) as [He|Hne].
    + rewrite (select_and_append_empty _ _ He) in Hex. rewrite Hex.
      exists []. by rewrite app_nil_r.
    + destruct (select_and_append_nonempty rnd s Hne)
        as (target & data & _ & Hk & Hrun).
      rewrite Hrun in Hex.
      destruct (active_connections s !! target) as [ws|] eqn:Hc.
      * erewrite start_push_attached in Hex by done.
        eexists [_; _]. split.
        { rewrite Hex. cbn [snd trace]. by rewrite <- app_assoc. }
        constructor; [done|]. constructor; [|done].
        exists rnd, target, (with_message data
                               (new_email rnd (email_address data))).
        split_and!; [done|done| |].
        -- rewrite Hex. cbn [snd inboxes]. by rewrite lookup_insert_eq.
        -- cbn. by rewrite last_snoc.
      * erewrite start_push_unattached in Hex by done.
        eexists [_]. split; [by rewrite Hex|]. by repeat constructor.
  - cbn [exec]. unfold cycle_resume. unfold_m.
    destruct send_answer as [[]|]; cbn [snd trace];
      try (exists []; by rewrite app_nil_r).
    + destruct (active_connections s !! target_email_id p);
        exists []; by rewrite app_nil_r.
    + eexists [_]. split; [done|]. by repeat constructor.
Qed.

(** ** The life of one inbox *)

(** A segment that does not create the identifier again leaves an inbox its
    address and its messages, possibly with one more at the end. *)
Lemma exec_messages a s k v v' :
  inboxes s !! k = Some v → inboxes (exec a s) !! k = Some v' →
  ¬ creates k a →
  email_address v' = email_address v ∧ messages v `prefix_of` messages v'.
Proof.
  intros Hv.
  destruct a as [id_draw first draws now|email_id|email_id close_answer
                |email_id now|w email_id|w email_id|w email_id e
                |now|rnd|p send_answer]; cbn [exec creates]; intros H Hcr.
  - destruct (regenerate (inboxes s) (address_of first) draws)
      as [addr|] eqn:Hr.
    + rewrite (generate_new_email_eq _ _ _ _ _ _ Hr) in H. cbn [inboxes] in H.
      rewrite lookup_insert_ne in H by done. by simplify_eq.
    + unfold generate_new_email in H. rewrite Hr in H. by simplify_eq.
  - rewrite check_email_inbox_state in H. by simplify_eq.
  - rewrite delete_email_inboxes in H.
    apply lookup_delete_Some in H as [_ H]. by simplify_eq.
  - destruct (inboxes s !! email_id) as [data|] eqn:Hd.
    + rewrite (refresh_email_timer_live _ _ _ _ Hd) in H.
      cbn [inboxes snd] in H.
      destruct (decide (email_id = k)) as [->|Hne].
      * rewrite lookup_insert_eq in H. by simplify_eq.
      * rewrite lookup_insert_ne in H by done. by simplify_eq.
    + rewrite (refresh_email_timer_absent _ _ _ Hd) in H. cbn [snd] in H.
      by simplify_eq.
  - destruct (inboxes s !! email_id) as [data|] eqn:Hd.
    + rewrite (websocket_connect_live _ _ _ _ Hd) in H.
      cbn [inboxes snd] in H. by simplify_eq.
    + rewrite (websocket_connect_absent _ _ _ Hd) in H.
      cbn [inboxes snd] in H. by simplify_eq.
  - rewrite websocket_register_eq in H. cbn [inboxes snd] in H. by simplify_eq.
  - rewrite websocket_leave_inboxes in H. by simplify_eq.
  - destruct (cleanup_tick_eq s now) as (s' & lines & Heq & Hi & _).
    rewrite Heq in H. cbn [snd] in H. rewrite Hi in H.
    destruct (decide _); by simplify_eq.
  - destruct (cycle_begin_inboxes rnd s) as [Heq|(target & data & Hd & Heq)];
      rewrite Heq in H; [by simplify_eq|].
    destruct (decide (target = k)) as [->|Hne].
    + rewrite lookup_insert_eq in H. simplify_eq. split; [done|].
      by apply prefix_app_r.
    + rewrite lookup_insert_ne in H by done. by simplify_eq.
  - rewrite cycle_resume_inboxes in H. by simplify_eq.
Qed.

(** X5.  The messages of an inbox are append-only for as long as it lives:
    if an inbox is in the registry before and after a run of segments none of
    which creates its identifier again, it has kept its address and all the
    messages it had, in the same order, at the head of its messages. *)
Theorem messages_are_append_only schedule : ∀ s k v v',
  inboxes s !! k = Some v →
  inboxes (run schedule s) !! k = Some v' →
  Forall (λ a, ¬ creates k a) schedule →
  email_address v' = email_address v ∧ messages v `prefix_of` messages v'.
Proof.
  induction schedule as [|a rest IH]; intros s k v v' Hv Hv' Hall.
  - cbn in Hv'. by simplify_eq.
  - apply Forall_cons in Hall as [Ha Hrest]. cbn [run foldl] in Hv'.
    destruct (inboxes (exec a s) !! k) as [v1|] eqn:H1.
    + destruct (exec_messages a s k v v1 Hv H1 Ha) as [Ha1 Hp1].
      destruct (IH (exec a s) k v1 v' H1 Hv' Hrest) as [Ha2 Hp2].
      split; [congruence|]. by etrans.
    + pose proof (run_absent rest (exec a s) k H1 Hrest) as Hnone.
      unfold run in Hnone. congruence.
Qed.

Lemma messages_are_append_only_witness :
  email_address
    (with_message (mkInbox "00000000@temp-inbox.com" [] (9 + TTL))
       (new_email some_randomness "00000000@temp-inbox.com"))
  = email_address (mkInbox "00000000@temp-inbox.com" [] TTL) ∧
  messages (mkInbox "00000000@temp-inbox.com" [] TTL) `prefix_of`
  messages
    (with_message (mkInbox "00000000@temp-inbox.com" [] (9 + TTL))
       (new_email some_randomness "00000000@temp-inbox.com")).
Proof.
  apply (messages_are_append_only
           [ARefreshEmail the_id 9; ACycleBegin some_randomness;
            ACycleResume
              (mkPending the_id "00000000@temp-inbox.com" 7%nat
                 (new_email some_randomness "00000000@temp-inbox.com"))
              (Some WebSocketDisconnect)]
           one_inbox_attached the_id).
  - vm_compute. reflexivity.
  - vm_compute. reflexivity.
  - repeat constructor; vm_compute; tauto.
Defined.

(** X6.  A refresh protects an inbox for one hour of the clock: after
    [refresh_email_timer] at reading [now], a tick of the reaper at reading
    [tick] keeps the inbox, with its address and messages, when [tick] is at
    most [now] plus one hour (the bound included: the test of line 63 is
    strict), and removes it when [tick] is later. *)
Theorem refreshed_inbox_survives_ticks s email_id now tick data :
  inboxes s !! email_id = Some data →
  inboxes (cleanup_tick tick (refresh_email_timer email_id now s).2).2
    !! email_id =
    if decide (now + TTL < tick) then None
    else Some (mkInbox (email_address data) (messages data) (now + TTL)).
Proof.
  intros Hd. rewrite (refresh_email_timer_live _ _ _ _ Hd). cbn [snd].
  match goal with |- context [cleanup_tick tick ?s1] =>
    destruct (cleanup_tick_eq s1 tick) as (s' & lines & -> & Hi & _)
  end.
  cbn [snd inboxes] in *. rewrite Hi, lookup_insert_eq.
  destruct (decide (expired _ _ _)) as [He|He], (decide (_ < _)) as [Hlt|Hlt];
    try done; exfalso.
  - destruct He as (x & Hx & Hlt'). rewrite lookup_insert_eq in Hx.
    simplify_eq. by cbn in Hlt'.
  - apply He. eexists. by rewrite lookup_insert_eq.
Qed.

Lemma refreshed_inbox_survives_ticks_witness :
  inboxes (cleanup_tick (9 + TTL) (refresh_email_timer the_id 9 one_inbox).2).2
    !! the_id =
    if decide (9 + TTL < 9 + TTL) then None
    else Some (mkInbox "00000000@temp-inbox.com" [] (9 + TTL)).
Proof.
  apply (refreshed_inbox_survives_ticks one_inbox the_id 9 (9 + TTL)
           (mkInbox "00000000@temp-inbox.com" [] TTL)).
  vm_compute. reflexivity.
Defined.

(** X7.  What [generate_new_email] has created can be read back at once:
    [check_email_inbox] on the identifier it returned answers with the empty
    list and changes nothing.  The creation leaves every handle and every
    inbox under another identifier as it was; an inbox that was stored under
    the same identifier is replaced by the new, empty one. *)
Theorem created_inbox_reads_empty id_draw first draws now s email_id addr s' :
  generate_new_email id_draw first draws now s
    = Some (Ret (NewEmailResponse email_id addr), s') →
  check_email_inbox email_id s' = (Ret (InboxResponse []), s') ∧
  active_connections s' = active_connections s ∧
  ∀ j, j ≠ email_id → inboxes s' !! j = inboxes s !! j.
Proof.
  intros Hrun.
  destruct (regenerate (inboxes s) (address_of first) draws)
    as [a|] eqn:Hr.
  2: { unfold generate_new_email in Hrun. by rewrite Hr in Hrun. }
  rewrite (generate_new_email_eq _ _ _ _ _ _ Hr) in Hrun.
  injection Hrun as <- <- <-. split_and!.
  - rewrite (check_email_inbox_live _ _ (mkInbox a [] (now + TTL))); [done|].
    cbn [inboxes]. apply lookup_insert_eq.
  - done.
  - intros j Hne. cbn [inboxes]. by rewrite lookup_insert_ne.
Qed.

Lemma created_inbox_reads_empty_witness :
  check_email_inbox the_id one_inbox = (Ret (InboxResponse []), one_inbox) ∧
  active_connections one_inbox = active_connections initial ∧
  ∀ j, j ≠ the_id → inboxes one_inbox !! j = inboxes initial !! j.
Proof.
  apply (created_inbox_reads_empty 1%N 0%N [] 0 initial the_id
           "00000000@temp-inbox.com" one_inbox).
  vm_compute. reflexivity.
Defined.

(** ** The generator and the reaper as tasks *)

(** X8.  The first segment of a cycle of the generator (lines 84-107) never
    adds, removes or replaces a handle, and never adds or removes an inbox.
    On an empty registry it changes no inbox; otherwise it changes exactly
    one, by one message put at its end, and leaves the address and the
    deadline of that inbox, and every other inbox, as they were. *)
Theorem cycle_changes_one_inbox rnd s :
  active_connections (cycle_begin rnd s).2 = active_connections s ∧
  dom (inboxes (cycle_begin rnd s).2) = dom (inboxes s) ∧
  if decide (inboxes s = ∅) then inboxes (cycle_begin rnd s).2 = inboxes s
  else
    ∃ target data,
      inboxes s !! target = Some data ∧
      inboxes (cycle_begin rnd s).2 !! target =
        Some (mkInbox (email_address data)
                (messages data ++ [new_email rnd (email_address data)])
                (expires_at data)) ∧
      ∀ k, k ≠ target → inboxes (cycle_begin rnd s).2 !! k = inboxes s !! k.
Proof.
  split; [apply cycle_begin_connections|].
  destruct (decide (inboxes s = ∅)) as [He|Hne].
  - assert (inboxes (cycle_begin rnd s).2 = inboxes s) as ->; [|done].
    rewrite cycle_begin_split. by rewrite (select_and_append_empty _ _ He).
  - assert (∃ target data,
              inboxes s !! target = Some data ∧
              inboxes (cycle_begin rnd s).2 =
                <[target := with_message data
                              (new_email rnd (email_address data))]>
                  (inboxes s)) as (target & data & Hd & Heq).
    { rewrite cycle_begin_split.
      destruct (select_and_append_nonempty rnd s Hne)
        as (target & data & _ & Hk & ->).
      exists target, data. split; [done|].
      destruct (active_connections s !! target) as [ws|] eqn:Hc.
      - by erewrite start_push_attached.
      - by erewrite start_push_unattached. }
    rewrite Heq. split.
    + by apply dom_insert_lookup_L.
    + exists target, data. split_and!; [done|apply lookup_insert_eq|].
      intros k Hne'. by rewrite lookup_insert_ne.
Qed.

Lemma one_cycle_raise c s e s' :
  one_cycle c s = (Raise e, s') →
  (c_send_answer c = Some e ∧ e ≠ WebSocketDisconnect) ∨
  (c_send_answer c = Some WebSocketDisconnect ∧ e = KeyError).
Proof.
  unfold one_cycle.
  destruct (cycle_begin_returns (c_rnd c) (run (c_sleeping c) s))
    as (pending & s1 & ->).
  destruct pending as [p|]; [|done].
  unfold cycle_resume. unfold_m.
  destruct (c_send_answer c) as [[]|]; try done;
    try (intros [= <- _]; by left).
  destruct (_ !! _); [done|]. intros [= <- _]. by right.
Qed.

(** X9.  The generator task ends in one way only: a push that raises.  If
    [simulate_email_reception] ends with an exception, then in one of its
    cycles [send_json] raised: either that very exception, which was not
    [WebSocketDisconnect], or [WebSocketDisconnect], and then the task ended
    with the [KeyError] of line 111.  Whatever else the other tasks do, no
    other line of the loop raises. *)
Theorem generator_ends_only_on_push cycles : ∀ s e s',
  simulate_email_reception cycles s = (Raise e, s') →
  Exists (λ c, (c_send_answer c = Some e ∧ e ≠ WebSocketDisconnect) ∨
               (c_send_answer c = Some WebSocketDisconnect ∧ e = KeyError))
         cycles.
Proof.
  unfold simulate_email_reception.
  induction cycles as [|c rest IH]; intros s e s'; [done|].
  cbn [for_each]. unfold mbind, M_bind.
  destruct (one_cycle c s) as [[[]|e1] s1] eqn:Hc.
  - intros H. apply Exists_cons_tl. by eapply IH.
  - intros [= <- <-]. apply Exists_cons_hd. by eapply one_cycle_raise.
Qed.

Lemma generator_ends_only_on_push_witness :
  Exists (λ c, (c_send_answer c = Some RuntimeError ∧
                RuntimeError ≠ WebSocketDisconnect) ∨
               (c_send_answer c = Some WebSocketDisconnect ∧
                RuntimeError = KeyError))
         [mkCycle [] some_randomness [] None;
          mkCycle [] some_randomness [] (Some RuntimeError)].
Proof.
  pose (r := simulate_email_reception
               [mkCycle [] some_randomness [] None;
                mkCycle [] some_randomness [] (Some RuntimeError)]
               one_inbox_attached).
  assert (Hr : simulate_email_reception
                 [mkCycle [] some_randomness [] None;
                  mkCycle [] some_randomness [] (Some RuntimeError)]
                 one_inbox_attached = r) by reflexivity.
  vm_compute in r.
  match eval unfold r in r with
  | (Raise RuntimeError, ?s') =>
      exact (generator_ends_only_on_push _ one_inbox_attached RuntimeError s' Hr)
  end.
Defined.

(** X10.  A tick of the reaper leaves nothing for a tick that reads the
    same clock, or an earlier one: run right after the first, the second
    tick changes neither dictionary. *)
Theorem second_tick_removes_nothing s now now' :
  now' ≤ now →
  inboxes (cleanup_tick now' (cleanup_tick now s).2).2
    = inboxes (cleanup_tick now s).2 ∧
  active_connections (cleanup_tick now' (cleanup_tick now s).2).2
    = active_connections (cleanup_tick now s).2.
Proof.
  intros Hle.
  destruct (cleanup_tick_eq s now) as (s1 & lines & -> & Hi & Hc & _).
  cbn [snd].
  destruct (cleanup_tick_eq s1 now') as (s2 & lines' & -> & Hi' & Hc' & _).
  cbn [snd].
  assert (∀ k, ¬ expired (inboxes s1) now' k) as Hnone.
  { intros k (data & Hd & Hlt). rewrite Hi in Hd.
    destruct (decide (expired (inboxes s) now k)) as [|Hne]; [done|].
    apply Hne. exists data. split; [done|lia]. }
  split; apply map_eq; intros k.
  - rewrite Hi'. destruct (decide _) as [He|]; [|done]. by apply Hnone in He.
  - rewrite Hc'. destruct (decide _) as [He|]; [|done]. by apply Hnone in He.
Qed.

Lemma second_tick_removes_nothing_witness :
  inboxes (cleanup_tick 5 (cleanup_tick (TTL + 1) one_inbox_attached).2).2
    = inboxes (cleanup_tick (TTL + 1) one_inbox_attached).2 ∧
  active_connections
    (cleanup_tick 5 (cleanup_tick (TTL + 1) one_inbox_attached).2).2
    = active_connections (cleanup_tick (TTL + 1) one_inbox_attached).2.
Proof.
  apply (second_tick_removes_nothing one_inbox_attached (TTL + 1) 5).
  vm_compute. discriminate.
Defined.

(** X11.  The reaper task never ends: whatever the other tasks do between
    its ticks, no tick raises.  In particular the lookup of line 68, which
    comes before the membership test of line 69, always finds its key. *)
Theorem reaper_never_raises ticks s :
  (cleanup_expired_inboxes ticks s).1 = Ret tt.
Proof. apply cleanup_expired_inboxes_never_raises. Qed.

(** X12.  No inbox ever has more than one hour left: in every state the
    program reaches, the deadline of every inbox is at most one hour after
    the latest clock reading so far. *)
Theorem deadlines_within_one_hour schedule T k v :
  clocks_upto T schedule →
  inboxes (run schedule initial) !! k = Some v →
  expires_at v ≤ T + TTL.
Proof.
  intros Hclocks Hk.
  by apply (run_due_by T schedule initial Hclocks (due_by_initial T) k v).
Qed.

Lemma deadlines_within_one_hour_witness :
  expires_at (mkInbox "00000000@temp-inbox.com" [] (9 + TTL)) ≤ 9 + TTL.
Proof.
  apply (deadlines_within_one_hour
           [ANewEmail 1%N 0%N [] 0; ACleanupTick 4; ARefreshEmail the_id 9]
           9 the_id).
  - repeat constructor; cbn; intros t [= <-]; lia.
  - vm_compute. reflexivity.
Defined.

(** ** Addresses *)

Lemma append_cons c s t : String c s +:+ t = String c (s +:+ t).
Proof. reflexivity. Qed.

Lemma append_nil_r s : s +:+ "" = s.
Proof. induction s as [|c s IH]; [done|]. by rewrite append_cons, IH. Qed.

Lemma append_assoc s1 s2 s3 : (s1 +:+ s2) +:+ s3 = s1 +:+ (s2 +:+ s3).
Proof.
  induction s1 as [|c s1 IH]; [done|]. by rewrite !append_cons, IH.
Qed.

Lemma length_append s1 s2 :
  String.length (s1 +:+ s2) = (String.length s1 + String.length s2)%nat.
Proof.
  induction s1 as [|c s1 IH]; [done|]. rewrite append_cons. cbn. by rewrite IH.
Qed.

Lemma substring_append_l s1 s2 :
  substring 0 (String.length s1) (s1 +:+ s2) = s1.
Proof.
  induction s1 as [|c s1 IH].
  - by destruct s2.
  - rewrite append_cons. cbn. by rewrite IH.
Qed.

Lemma append_inj_l s1 : ∀ s2 t1 t2,
  String.length s1 = String.length s2 →
  s1 +:+ t1 = s2 +:+ t2 → s1 = s2 ∧ t1 = t2.
Proof.
  induction s1 as [|c s1 IH]; intros [|d s2] t1 t2 Hlen; try done.
  rewrite !append_cons. intros [= -> Heq]. cbn in Hlen.
  destruct (IH s2 t1 t2) as [-> ->]; [lia|done|done].
Qed.

Lemma hex_fixed_length w : ∀ n, String.length (hex_fixed w n) = w.
Proof.
  induction w as [|w IH]; intros n; [done|].
  cbn [hex_fixed]. rewrite length_append, IH. cbn. lia.
Qed.

Lemma hex_fixed_split a b : ∀ n,
  hex_fixed (a + b) n =
  hex_fixed a (n / 16 ^ N.of_nat b)%N +:+ hex_fixed b n.
Proof.
  induction b as [|b IH]; intros n.
  - rewrite Nat.add_0_r. cbn [hex_fixed N.of_nat].
    by rewrite append_nil_r, N.pow_0_r, N.div_1_r.
  - rewrite Nat.add_succ_r. cbn [hex_fixed]. rewrite IH, append_assoc.
    do 2 f_equal. rewrite Nat2N.inj_succ, N.pow_succ_r', N.Div0.div_div.
    done.
Qed.

Lemma hex_value_digit d : (d < 16)%N → hex_value (hex_digit d) = d.
Proof.
  intros Hd. destruct d as [|p]; [done|].
  do 4 (try destruct p as [p|p|]); try lia; reflexivity.
Qed.

Lemma hex_digit_inj a b :
  (a < 16)%N → (b < 16)%N → hex_digit a = hex_digit b → a = b.
Proof.
  intros Ha Hb Heq.
  by rewrite <- (hex_value_digit a Ha), <- (hex_value_digit b Hb), Heq.
Qed.

Lemma mod_16_step n c :
  (c ≠ 0)%N →
  (n mod (16 * c) = n mod 16 + 16 * ((n / 16) mod c))%N.
Proof. intros Hc. by rewrite N.Div0.mod_mul_r. Qed.

(** Two numbers have the same [w] hexadecimal digits exactly when they agree
    modulo [16^w]. *)
Lemma hex_fixed_inj w : ∀ n m,
  hex_fixed w n = hex_fixed w m ↔
  (n mod 16 ^ N.of_nat w = m mod 16 ^ N.of_nat w)%N.
Proof.
  induction w as [|w IH]; intros n m.
  - cbn. by rewrite !N.mod_1_r.
  - rewrite Nat2N.inj_succ, N.pow_succ_r'.
    assert (16 ^ N.of_nat w ≠ 0)%N as Hc by by apply N.pow_nonzero.
    rewrite !(mod_16_step _ _ Hc). cbn [hex_fixed].
    assert (n mod 16 < 16)%N as Hn by by apply N.mod_upper_bound.
    assert (m mod 16 < 16)%N as Hm by by apply N.mod_upper_bound.
    split.
    + intros Heq. apply append_inj_l in Heq as [Hhi Hlo];
        [|by rewrite !hex_fixed_length].
      injection Hlo as Hlo. apply hex_digit_inj in Hlo; [|done..].
      apply IH in Hhi. by rewrite Hlo, Hhi.
    + intros Heq.
      assert (n mod 16 = m mod 16 ∧
              (n / 16) mod 16 ^ N.of_nat w = (m / 16) mod 16 ^ N.of_nat w)%N
        as [Hlo Hhi].
      { revert Hn Hm Heq.
        generalize (n mod 16)%N (m mod 16)%N
          ((n / 16) mod 16 ^ N.of_nat w)%N ((m / 16) mod 16 ^ N.of_nat w)%N.
        intros a b x y Ha Hb Heq. lia. }
      apply IH in Hhi. by rewrite Hlo, Hhi.
Qed.

Lemma random_prefix_eq u : random_prefix u = hex_fixed 8 (u / 2 ^ 96)%N.
Proof.
  unfold random_prefix, uuid_hex.
  change (hex_fixed 32 u) with (hex_fixed (8 + 24) u).
  rewrite (hex_fixed_split 8 24 u).
  change (substring 0 8) with
    (substring 0 (String.length (hex_fixed 8 (u / 16 ^ N.of_nat 24)%N))).
  by rewrite substring_append_l.
Qed.

(** X13.  Only the first 32 bits of the drawn UUID decide the address
    ([.hex[:8]], lines 133 and 138): two draws give the same address exactly
    when they agree on these bits, so that the loop of line 137 goes on
    exactly when the first 32 bits of the draw are those of the draw behind
    an address of the registry. *)
Theorem address_collision u v :
  address_of u = address_of v ↔ time_low u = time_low v.
Proof.
  unfold address_of, time_low. rewrite !random_prefix_eq.
  change (2 ^ 32)%N with (16 ^ N.of_nat 8)%N. rewrite <- hex_fixed_inj.
  split.
  - intros Heq. apply append_inj_l in Heq as [Heq _]; [done|].
    by rewrite !hex_fixed_length.
  - by intros ->.
Qed.

(** ** Identifiers *)

Lemma substring_split n : ∀ m s,
  substring 0 (n + m) s = substring 0 n s +:+ substring n m s.
Proof.
  induction n as [|n IH]; intros m s.
  - by destruct m, s.
  - destruct s as [|c s]; [done|].
    cbn [Nat.add substring]. by rewrite IH, append_cons.
Qed.

Lemma substring_full s : substring 0 (String.length s) s = s.
Proof.
  rewrite <- (append_nil_r s) at 2. by rewrite substring_append_l.
Qed.

Lemma substring_length n : ∀ m s,
  (n + m ≤ String.length s)%nat → String.length (substring n m s) = m.
Proof.
  induction n as [|n IH]; intros m s.
  - revert s. induction m as [|m IHm]; intros [|c s] Hlen; cbn in *;
      try done; try lia.
    rewrite IHm; [done|lia].
  - destruct s as [|c s]; cbn; [lia|]. intros Hlen. apply IH. lia.
Qed.

(** A string of 32 characters is made of its five groups. *)
Lemma groups_of_32 h :
  String.length h = 32%nat →
  h = substring 0 8 h +:+ substring 8 4 h +:+ substring 12 4 h
        +:+ substring 16 4 h +:+ substring 20 12 h.
Proof.
  intros Hlen. rewrite <- (substring_full h) at 1. rewrite Hlen.
  rewrite (substring_split 20 12), (substring_split 16 4),
    (substring_split 12 4), (substring_split 8 4).
  by rewrite !append_assoc.
Qed.

(** X14.  The identifier of an inbox ([str(uuid.uuid4())], line 132) shows
    all 128 bits of the drawn UUID: two draws give the same identifier
    exactly when they are the same 128-bit number.  So [generate_new_email]
    stores its inbox over an existing one only when [uuid.uuid4()] returns a
    UUID it has returned before. *)
Theorem identifier_collision u v :
  uuid_str u = uuid_str v ↔ (u mod 2 ^ 128 = v mod 2 ^ 128)%N.
Proof.
  change (2 ^ 128)%N with (16 ^ N.of_nat 32)%N. rewrite <- hex_fixed_inj.
  fold (uuid_hex u) (uuid_hex v).
  assert (∀ w, String.length (uuid_hex w) = 32%nat) as Hlen
    by (intros w; apply hex_fixed_length).
  split; [|unfold uuid_str; by intros ->].
  unfold uuid_str. intros Heq.
  assert (∀ w n m, (n + m ≤ 32)%nat →
            String.length (substring n m (uuid_hex w)) = m) as Hsub.
  { intros w n m Hle. apply substring_length. by rewrite Hlen. }
  apply append_inj_l in Heq as [H1 Heq]; [|by rewrite !Hsub by lia].
  apply append_inj_l in Heq as [_ Heq]; [|done].
  apply append_inj_l in Heq as [H2 Heq]; [|by rewrite !Hsub by lia].
  apply append_inj_l in Heq as [_ Heq]; [|done].
  apply append_inj_l in Heq as [H3 Heq]; [|by rewrite !Hsub by lia].
  apply append_inj_l in Heq as [_ Heq]; [|done].
  apply append_inj_l in Heq as [H4 Heq]; [|by rewrite !Hsub by lia].
  apply append_inj_l in Heq as [_ H5]; [|done].
  rewrite (groups_of_32 (uuid_hex u)), (groups_of_32 (uuid_hex v)) by done.
  by rewrite H1, H2, H3, H4, H5.
Qed.

(** ** The address loop as a search *)

(** X15.  The loop of lines 137-139 is a search for the first free address:
    among the address drawn first and those of the further draws, in order,
    [generate_new_email] takes the first one that no inbox of the registry
    has, skipping none, and it is still looking exactly when all of them are
    taken. *)
Theorem regenerate_is_first_free d draws : ∀ addr,
  regenerate d addr draws =
    snd <$> list_find (λ a, address_taken d a = false)
              (addr :: (address_of <$> draws)).
Proof.
  induction draws as [|u rest IH]; intros addr.
  - cbn [regenerate fmap list_fmap list_find].
    destruct (address_taken d addr) eqn:Ht.
    + by rewrite decide_False by done.
    + by rewrite decide_True by done.
  - cbn [regenerate]. rewrite IH. cbn [fmap list_fmap list_find].
    destruct (address_taken d addr) eqn:Ht.
    + rewrite (decide_False (P := true = false)) by done.
      destruct (decide (address_taken d (address_of u) = false)); [done|].
      by destruct (list_find _ _) as [[? ?]|].
    + by rewrite (decide_True (P := false = false)) by done.
Qed.
